(** * Terraform AWS provider: RDS parameter groups and VPC IPAM resources

  A shallow embedding of
    - [internal/service/rds/parameter_group.go]
      (the batch planner [ResourceParameterModifyChunk], the update loop
      that drives it, and the Read and Delete handlers), and
    - the VPC IPAM resource handlers ([resource_aws_vpc_ipam.go] and the
      IPAM scope resource),
  followed by the properties that the specification states about them,
  and by further properties of the same code: the modify and reset loops
  of Update, the parameters that Read keeps, the Update and Create
  handlers of the IPAM and its lookups. *)

From Stdlib Require Import List String Ascii ZArith Lia Permutation Bool Arith.
Import ListNotations.

(* ===================================================================== *)
(** ** Go values used by the handlers *)
(* ===================================================================== *)

Module Go.

(** A slice value.  Go tells the nil slice from an empty non-nil one
    ([parameters != nil] in the update loop), so [None] is nil. *)
Definition slice (A : Type) : Type := option (list A).

Definition elems {A} (s : slice A) : list A :=
  match s with
  | None => []
  | Some l => l
  end.

(** [len(s)], a Go [int]. *)
Definition len {A} (s : slice A) : Z := Z.of_nat (List.length (elems s)).

(** [append(s, xs...)]: appending nothing to nil stays nil. *)
Definition append {A} (s : slice A) (xs : list A) : slice A :=
  match s, xs with
  | None, [] => None
  | _, _ => Some (elems s ++ xs)
  end.

(** [p == nil] for a pointer or an [error]. *)
Definition is_nil {A} (p : option A) : bool :=
  match p with
  | None => true
  | Some _ => false
  end.

(** [aws.StringValue]: the pointed-to string, or the empty string for a
    nil pointer. *)
Definition StringValue (p : option string) : string :=
  match p with
  | Some s => s
  | None => EmptyString
  end.

(** [strings.Contains(s, substr)]. *)
Fixpoint strings_Contains (s substr : string) : bool :=
  String.prefix substr s
  || match s with
     | EmptyString => false
     | String _ s' => strings_Contains s' substr
     end.

(** Outcome of one iteration of a loop body, and of a whole loop: carry on
    with a new state, or [return] from the enclosing function. *)
Inductive flow (S R : Type) : Type :=
| Next (s : S)
| Return (r : R).
Arguments Next {S R} s.
Arguments Return {S R} r.

(** [for i, p := range all { body }].  The body is given the element [p]
    and the elements of [all[i:]] (which start with [p]). *)
Fixpoint range {A S R} (body : list A -> A -> S -> flow S R)
         (all : list A) (s : S) : flow S R :=
  match all with
  | [] => Next s
  | p :: rest =>
      match body all p s with
      | Next s' => range body rest s'
      | Return r => Return r
      end
  end.

(** A handler either finishes with a value or dies with a run-time
    panic (nil pointer dereference, index out of range). *)
Inductive result (A : Type) : Type :=
| Done (a : A)
| Panic (reason : string).
Arguments Done {A} a.
Arguments Panic {A} reason.

(** Go [error] values met by the handlers. *)
Inductive error : Type :=
| AwsError (code message : string)       (* an [awserr.Error] of SDK v1 *)
| TypedFault (type message : string)     (* a typed fault of SDK v2 *)
| TimeoutError                           (* [*resource.TimeoutError], no LastError *)
| TimeoutErrorLast (lastError : error)   (* the same with a LastError *)
| Wrapped (context : string) (cause : error) (* [fmt.Errorf("...: %w", err)] *)
| ErrorString (message : string).        (* [fmt.Errorf] without [%w] *)

(** [tfawserr.ErrCodeEquals(err, code)]: [errors.As] to an [awserr.Error],
    then a comparison of its code. *)
Fixpoint errCodeEquals (e : error) (code : string) : bool :=
  match e with
  | AwsError c _ => String.eqb c code
  | Wrapped _ cause => errCodeEquals cause code
  | _ => false
  end.

Definition ErrCodeEquals (err : option error) (code : string) : bool :=
  match err with
  | Some e => errCodeEquals e code
  | None => false
  end.

(** [errs.IsA[*T](err)]: [errors.As] to the fault type [T]. *)
Fixpoint isA (type : string) (e : error) : bool :=
  match e with
  | TypedFault t _ => String.eqb t type
  | Wrapped _ cause => isA type cause
  | _ => false
  end.

Definition IsA (type : string) (err : option error) : bool :=
  match err with
  | Some e => isA type e
  | None => false
  end.

(** [strings.Split(s, sep)] for a non-empty separator: [skip] counts the
    bytes of a separator still to be passed over, [cur] is the piece
    being read. *)
Fixpoint split_from (sep s : string) (skip : nat) (cur : string)
  : list string :=
  match s with
  | EmptyString => [cur]
  | String c s' =>
      match skip with
      | S k => split_from sep s' k cur
      | O =>
          if String.prefix sep s then
            cur :: split_from sep s' (String.length sep - 1) EmptyString
          else
            split_from sep s' 0 (cur ++ String c EmptyString)%string
      end
  end.

Definition strings_Split (s sep : string) : list string :=
  split_from sep s 0 EmptyString.

End Go.

(* ===================================================================== *)
(** ** The remote service and the plugin SDK helpers *)
(* ===================================================================== *)

Module tf.
Import Go.

(** One request sent to the remote API: the operation and the identifier
    (or client token) it carries. *)
Record apicall : Type := mkCall {
  operation : string;
  target : string
}.

(** The remote side as the handlers see it: a service state [W] that
    every request may change, and the log of requests sent so far. *)
Record remote (W : Type) : Type := mkRemote {
  world : W;
  calls : list apicall
}.
Arguments mkRemote {W} world calls.
Arguments world {W} r.
Arguments calls {W} r.

(** Send one request: run the service operation and log the call. *)
Definition invoke {W I O} (name : string) (key : string)
           (op : I -> W -> O * W) (input : I) (st : remote W)
  : O * remote W :=
  let '(out, w') := op input (world st) in
  (out, mkRemote w' (calls st ++ [mkCall name key])).

(** [diag.Diagnostics]: the error diagnostics of a handler; empty means
    success. *)
Record diagnostic : Type := mkDiag {
  summary : string;
  cause : option error
}.
Definition Diagnostics : Type := list diagnostic.

(** [sdkdiag.AppendErrorf(diags, "<summary>: %s", err)]. *)
Definition AppendErrorf (diags : Diagnostics) (msg : string)
           (err : option error) : Diagnostics :=
  diags ++ [mkDiag msg err].

(** [*resource.RetryError]. *)
Inductive RetryError : Type :=
| RetryableError (err : option error)
| NonRetryableError (err : option error).

(** Modelled from the spec: [resource.RetryContext] of the plugin SDK,
    which is not part of this repository ("retried for a bounded
    window").  The time window is counted in attempts: [f] is run again
    while it reports a retryable error and attempts are left; a nil
    result or a non-retryable error ends the loop at once.  When the
    window closes the last error of [f] is returned, or a bare timeout
    error if [f] never completed. *)
Fixpoint retry_loop {W} (attempts : nat)
         (f : remote W -> option RetryError * remote W)
         (resultErr : option error) (st : remote W)
  : option error * remote W :=
  match attempts with
  | O =>
      match resultErr with
      | None => (Some TimeoutError, st)
      | Some e => (Some e, st)
      end
  | S n =>
      match f st with
      | (None, st') => (None, st')
      | (Some (NonRetryableError e), st') => (e, st')
      | (Some (RetryableError e), st') => retry_loop n f e st'
      end
  end.

Definition RetryContext {W} (attempts : nat)
           (f : remote W -> option RetryError * remote W)
           (st : remote W) : option error * remote W :=
  retry_loop attempts f None st.

(** Modelled from the spec: [tfresource.TimedOut(err)], a helper of the
    provider's [internal/tfresource] package ("timeout while polling"):
    [err] is a [*resource.TimeoutError] whose LastError is nil. *)
Definition TimedOut (err : option error) : bool :=
  match err with
  | Some TimeoutError => true
  | _ => false
  end.

(** [resource.StateChangeConf] of the plugin SDK; durations in seconds. *)
Record StateChangeConf (W R : Type) : Type := mkStateChangeConf {
  Pending : list string;
  Target : list string;
  Refresh : remote W -> (option R * string * option error) * remote W;
  Timeout : Z;
  Delay : Z
}.
Arguments mkStateChangeConf {W R} Pending Target Refresh Timeout Delay.
Arguments Pending {W R} s.
Arguments Target {W R} s.
Arguments Refresh {W R} s.
Arguments Timeout {W R} s.
Arguments Delay {W R} s.

(** The type of the [WaitForState] method of [StateChangeConf], the
    polling helper of the plugin SDK; the handlers below take it as an
    argument. *)
Definition waiter (W : Type) : Type :=
  forall R : Type,
    StateChangeConf W R -> remote W -> (option R * option error) * remote W.

End tf.

(* ===================================================================== *)
(** ** RDS parameter group: the batch planner and the handlers *)
(* ===================================================================== *)

Module rds.
Import Go tf.

(** [rds.Parameter] (a reserved word here, hence the prefix), with the
    fields the provider reads.  Every field is a [*string] in the SDK.  The slices handled below hold the non-nil
    pointers built by [expandParameters]. *)
Record rdsParameter : Type := mkParameter {
  ParameterName : option string;
  ParameterValue : option string;
  ApplyMethod : option string;
  Source : option string
}.

Definition maxParamModifyChunk : Z := 20.

(** The loop state of the planner: [(modifyChunk, remainder)]. *)
Definition chunk_state : Type := (slice rdsParameter * slice rdsParameter)%type.

Definition pending_reboot (p : rdsParameter) : bool :=
  String.eqb (StringValue (ApplyMethod p)) "pending-reboot"%string.

(** Body of the loop of pass 1. *)
Definition pass1_body (maxChunkSize : Z) (all_i : list rdsParameter)
           (p : rdsParameter) (st : chunk_state) : flow chunk_state chunk_state :=
  let '(modifyChunk, remainder) := st in
  if (len modifyChunk >=? maxChunkSize)%Z then
    Return (modifyChunk, append remainder all_i)
  else if strings_Contains (StringValue (ParameterName p)) "character_set"%string
          && negb (pending_reboot p) then
    Next (append modifyChunk [p], remainder)
  else
    Next (modifyChunk, append remainder [p]).

(** Body of the loop of pass 2 (avoid pending reboot). *)
Definition pass2_body (maxChunkSize : Z) (all_i : list rdsParameter)
           (p : rdsParameter) (st : chunk_state) : flow chunk_state chunk_state :=
  let '(modifyChunk, remainder) := st in
  if (len modifyChunk >=? maxChunkSize)%Z then
    Return (modifyChunk, append remainder all_i)
  else if negb (pending_reboot p) then
    Next (append modifyChunk [p], remainder)
  else
    Next (modifyChunk, append remainder [p]).

(** Body of the loop of pass 3 (everything else). *)
Definition pass3_body (maxChunkSize : Z) (all_i : list rdsParameter)
           (p : rdsParameter) (st : chunk_state) : flow chunk_state chunk_state :=
  let '(modifyChunk, remainder) := st in
  if (len modifyChunk >=? maxChunkSize)%Z then
    Return (modifyChunk, append remainder all_i)
  else
    Next (append modifyChunk [p], remainder).

Definition ResourceParameterModifyChunk (all : slice rdsParameter)
           (maxChunkSize : Z) : slice rdsParameter * slice rdsParameter :=
  if (len all <=? maxChunkSize)%Z then
    (all, None)
  else
    (* pass 1 *)
    match range (pass1_body maxChunkSize) (elems all) (None, None) with
    | Return r => r
    | Next (modifyChunk, remainder) =>
        let all := remainder in
        let remainder := None in
        (* pass 2 - avoid pending reboot *)
        match range (pass2_body maxChunkSize) (elems all)
                    (modifyChunk, remainder) with
        | Return r => r
        | Next (modifyChunk, remainder) =>
            let all := remainder in
            let remainder := None in
            (* pass 3 - everything else *)
            match range (pass3_body maxChunkSize) (elems all)
                        (modifyChunk, remainder) with
            | Return r => r
            | Next (modifyChunk, remainder) => (modifyChunk, remainder)
            end
        end
    end.

(** The loop of [resourceParameterGroupUpdate] that drives the planner,
    [for parameters != nil { paramsToModify, parameters = chunk(...) }],
    with every modify call succeeding; the result lists the batches sent,
    in order.  [fuel] bounds the number of iterations: [None] means the
    bound was hit before [parameters] became nil. *)
Fixpoint modifyLoop (maxChunkSize : Z) (fuel : nat)
         (parameters : slice rdsParameter) : option (list (list rdsParameter)) :=
  match parameters with
  | None => Some []
  | Some _ =>
      match fuel with
      | O => None
      | S fuel' =>
          let '(paramsToModify, parameters') :=
            ResourceParameterModifyChunk parameters maxChunkSize in
          match modifyLoop maxChunkSize fuel' parameters' with
          | Some sent => Some (elems paramsToModify :: sent)
          | None => None
          end
      end
  end.

(** The three priority classes of the planner, by the tests of its
    passes: 1 is selected by pass 1, 2 by pass 2, 3 is left to pass 3. *)
Definition is_charset (p : rdsParameter) : bool :=
  strings_Contains (StringValue (ParameterName p)) "character_set"%string
  && negb (pending_reboot p).

Definition is_immediate (p : rdsParameter) : bool := negb (pending_reboot p).

Definition priority (p : rdsParameter) : nat :=
  if is_charset p then 1
  else if is_immediate p then 2
  else 3.

(** In [b], a parameter of a higher class never comes before one of a
    lower class. *)
Definition by_priority (b : list rdsParameter) : Prop :=
  forall i j p q,
    nth_error b i = Some p -> nth_error b j = Some q ->
    (priority p < priority q)%nat -> (i < j)%nat.

(** The shape the three loop bodies share: pass 1 is [select_body
    is_charset], pass 2 is [select_body is_immediate], and pass 3, which
    selects whatever it meets, is [select_body (fun _ => true)]. *)
Definition select_body (sel : rdsParameter -> bool) (maxChunkSize : Z)
           (all_i : list rdsParameter) (p : rdsParameter) (st : chunk_state)
  : flow chunk_state chunk_state :=
  let '(modifyChunk, remainder) := st in
  if (len modifyChunk >=? maxChunkSize)%Z then
    Return (modifyChunk, append remainder all_i)
  else if sel p then
    Next (append modifyChunk [p], remainder)
  else
    Next (modifyChunk, append remainder [p]).

(** The elements of [l] that a pass with test [sel] steps over. *)
Definition skipped (sel : rdsParameter -> bool) (l : list rdsParameter)
  : list rdsParameter :=
  filter (fun p => negb (sel p)) l.

(** The order in which the specification has the planner pick parameters:
    the character-set parameters that are not pending-reboot, then the
    other parameters that are not pending-reboot, then the rest, each
    group in arrival order. *)
Definition planned_order (l : list rdsParameter) : list rdsParameter :=
  filter is_charset l
  ++ filter is_immediate (skipped is_charset l)
  ++ skipped is_immediate (skipped is_charset l).

(** [in_arrival_order r l]: [r] is [l] with some elements left out, the
    others in the order they have in [l]. *)
Inductive in_arrival_order {A : Type} : list A -> list A -> Prop :=
| arrival_nil : in_arrival_order [] []
| arrival_keep x r l : in_arrival_order r l -> in_arrival_order (x :: r) (x :: l)
| arrival_drop x r l : in_arrival_order r l -> in_arrival_order r (x :: l).

(** How a call on more than [maxChunkSize] elements ends: in pass 1, 2 or
    3, after scanning the prefix [pre] of that pass's input and leaving
    [tail] unscanned. *)
Inductive exhausted_in (l batch rest : list rdsParameter) : Prop :=
| in_pass1 pre tail :
    l = pre ++ tail ->
    batch = filter is_charset pre ->
    rest = skipped is_charset pre ++ tail ->
    exhausted_in l batch rest
| in_pass2 pre tail :
    skipped is_charset l = pre ++ tail ->
    batch = filter is_charset l ++ filter is_immediate pre ->
    rest = skipped is_immediate pre ++ tail ->
    exhausted_in l batch rest
| in_pass3 pre tail :
    skipped is_immediate (skipped is_charset l) = pre ++ tail ->
    batch = filter is_charset l
            ++ filter is_immediate (skipped is_charset l) ++ pre ->
    rest = tail ->
    exhausted_in l batch rest.

(** *** The Read and Delete handlers of the parameter group *)

(** SDK shapes of the describe and delete calls. *)
Record DBParameterGroup : Type := mkDBParameterGroup {
  DBParameterGroupArn : option string;
  DBParameterGroupFamily : option string;
  DBParameterGroupName : option string;
  Description : option string
}.

Record DescribeDBParameterGroupsInput : Type := mkDescribeInput {
  describe_DBParameterGroupName : option string
}.

Record DescribeDBParameterGroupsOutput : Type := mkDescribeOutput {
  DBParameterGroups : list (option DBParameterGroup)
}.

Record DeleteDBParameterGroupInput : Type := mkDeleteInput {
  delete_DBParameterGroupName : option string
}.

(** The RDS connection: each operation answers from the service state
    and may change it.  The output of a delete call is discarded by the
    handler, so only its error is kept. *)
Record RDSConn (W : Type) : Type := mkRDSConn {
  DescribeDBParameterGroupsWithContext :
    DescribeDBParameterGroupsInput -> W ->
    (option DescribeDBParameterGroupsOutput * option error) * W;
  DeleteDBParameterGroup :
    DeleteDBParameterGroupInput -> W -> option error * W
}.
Arguments mkRDSConn {W} _ _.
Arguments DescribeDBParameterGroupsWithContext {W} r.
Arguments DeleteDBParameterGroup {W} r.

Definition ErrCodeDBParameterGroupNotFoundFault : string :=
  "DBParameterGroupNotFound".

(** [*schema.ResourceData] of the resource, typed by its schema. *)
Record ResourceData : Type := mkResourceData {
  Id : string;
  IsNewResource : bool;
  arn : string;
  name : string;
  family : string;
  description : string;
  parameter : list rdsParameter;
  tags : list (string * string)
}.

Definition SetId (d : ResourceData) (id : string) : ResourceData :=
  mkResourceData id (IsNewResource d) (arn d) (name d) (family d)
                 (description d) (parameter d) (tags d).

Definition Set_group (d : ResourceData) (g : DBParameterGroup)
  : ResourceData :=
  mkResourceData (Id d) (IsNewResource d) (arn d)
                 (StringValue (DBParameterGroupName g))
                 (StringValue (DBParameterGroupFamily g))
                 (StringValue (Description g))
                 (parameter d) (tags d).

(** [resourceParameterGroupRead].  What follows the three [d.Set] calls
    of the group (describing the parameters, listing the tags) goes
    through helpers outside this file and is the argument
    [readParametersAndTags]. *)
Definition resourceParameterGroupRead {W} (conn : RDSConn W)
           (readParametersAndTags :
              DBParameterGroup -> ResourceData -> remote W ->
              result (ResourceData * Diagnostics) * remote W)
           (d : ResourceData) (st : remote W)
  : result (ResourceData * Diagnostics) * remote W :=
  let diags : Diagnostics := [] in
  let describeOpts := mkDescribeInput (Some (Id d)) in
  let '((describeResp, err), st) :=
    invoke "DescribeDBParameterGroups" (Id d)
           (DescribeDBParameterGroupsWithContext conn) describeOpts st in
  match err with
  | Some _ =>
      if ErrCodeEquals err ErrCodeDBParameterGroupNotFoundFault then
        (Done (SetId d "", diags), st)
      else
        (Done (d, AppendErrorf diags "reading RDS DB Parameter Group" err),
         st)
  | None =>
      match describeResp with
      | None => (Panic "nil pointer dereference", st)
      | Some resp =>
          match DBParameterGroups resp with
          | [None] => (Panic "nil pointer dereference", st)
          | [Some g] =>
              if negb (String.eqb (StringValue (DBParameterGroupName g))
                                  (Id d)) then
                (Done (d, AppendErrorf diags
                                       "Unable to find Parameter Group"
                                       None), st)
              else
                readParametersAndTags g (Set_group d g) st
          | _ =>
              (Done (d, AppendErrorf diags "Unable to find Parameter Group"
                                     None), st)
          end
      end
  end.

(** The function retried by [resourceParameterGroupDelete]. *)
Definition deleteAttempt {W} (conn : RDSConn W)
           (deleteOpts : DeleteDBParameterGroupInput) (id : string)
           (st : remote W) : option RetryError * remote W :=
  let '(err, st) :=
    invoke "DeleteDBParameterGroup" id (DeleteDBParameterGroup conn)
           deleteOpts st in
  if IsA "DBParameterGroupNotFoundFault" err then
    (None, st)
  else if IsA "InvalidDBParameterGroupStateFault" err then
    (Some (RetryableError err), st)
  else
    match err with
    | Some _ => (Some (NonRetryableError err), st)
    | None => (None, st)
    end.

(** [resourceParameterGroupDelete]; [attempts] is the number of tries
    that fit in the three minutes given to [RetryContext]. *)
Definition resourceParameterGroupDelete {W} (conn : RDSConn W)
           (attempts : nat) (d : ResourceData) (st : remote W)
  : Diagnostics * remote W :=
  let deleteOpts := mkDeleteInput (Some (Id d)) in
  let '(err, st) :=
    RetryContext attempts (deleteAttempt conn deleteOpts (Id d)) st in
  let '(err, st) :=
    if TimedOut err then
      invoke "DeleteDBParameterGroup" (Id d) (DeleteDBParameterGroup conn)
             deleteOpts st
    else (err, st) in
  match err with
  | Some _ => (AppendErrorf [] "deleting RDS DB Parameter Group" err, st)
  | None => ([], st)
  end.

(** The describe call of Read answers with the not-found error code. *)
Definition lookup_not_found {W} (conn : RDSConn W) (d : ResourceData)
           (st : remote W) : bool :=
  ErrCodeEquals
    (snd (fst (DescribeDBParameterGroupsWithContext
                 conn (mkDescribeInput (Some (Id d))) (world st))))
    ErrCodeDBParameterGroupNotFoundFault.

(** The error of the first delete request sent from state [st]. *)
Definition first_delete_error {W} (conn : RDSConn W) (d : ResourceData)
           (st : remote W) : option error :=
  fst (DeleteDBParameterGroup conn (mkDeleteInput (Some (Id d))) (world st)).

(** The remote state once that request has been answered. *)
Definition after_delete_request {W} (conn : RDSConn W) (d : ResourceData)
           (st : remote W) : remote W :=
  snd (invoke "DeleteDBParameterGroup" (Id d) (DeleteDBParameterGroup conn)
              (mkDeleteInput (Some (Id d))) st).

End rds.

(* ===================================================================== *)
(** ** VPC IPAM and IPAM scope resources *)
(* ===================================================================== *)

(** SDK shapes of the EC2 IPAM calls and the EC2 connection. *)
Module ec2.
Import Go tf.

Record IpamOperatingRegion : Type := mkIpamOperatingRegion {
  RegionName : option string
}.

Record Ipam : Type := mkIpam {
  IpamArn : option string;
  IpamId : option string;
  Description : option string;
  OperatingRegions : list IpamOperatingRegion;
  PublicDefaultScopeId : option string;
  PrivateDefaultScopeId : option string;
  ScopeCount : option Z
}.

Record DescribeIpamsInput : Type := mkDescribeIpamsInput {
  IpamIds : list string
}.

Record DescribeIpamsOutput : Type := mkDescribeIpamsOutput {
  Ipams : list (option Ipam)
}.

Record AddIpamOperatingRegion : Type := mkAddIpamOperatingRegion {
  add_RegionName : option string
}.

Record CreateIpamInput : Type := mkCreateIpamInput {
  ClientToken : option string;
  create_Description : option string;
  create_OperatingRegions : list AddIpamOperatingRegion
}.

Record CreateIpamOutput : Type := mkCreateIpamOutput {
  created_Ipam : option Ipam
}.

Record DeleteIpamInput : Type := mkDeleteIpamInput {
  delete_IpamId : option string
}.

Record IpamScope : Type := mkIpamScope {
  IpamScopeArn : option string;
  IpamScopeId : option string;
  scope_Description : option string;
  scope_IpamArn : option string;
  IpamScopeType : option string;
  IsDefault : option bool;
  PoolCount : option Z
}.

Record DescribeIpamScopesInput : Type := mkDescribeIpamScopesInput {
  IpamScopeIds : list string
}.

Record DescribeIpamScopesOutput : Type := mkDescribeIpamScopesOutput {
  IpamScopes : list (option IpamScope)
}.

(** [*ec2.EC2].  The output of [DeleteIpam] is discarded by the handler,
    so only its error is kept. *)
Record EC2 (W : Type) : Type := mkEC2 {
  DescribeIpams :
    DescribeIpamsInput -> W ->
    (option DescribeIpamsOutput * option error) * W;
  CreateIpam :
    CreateIpamInput -> W -> (option CreateIpamOutput * option error) * W;
  DeleteIpam : DeleteIpamInput -> W -> option error * W;
  DescribeIpamScopes :
    DescribeIpamScopesInput -> W ->
    (option DescribeIpamScopesOutput * option error) * W
}.
Arguments mkEC2 {W} _ _ _ _.
Arguments DescribeIpams {W} e.
Arguments CreateIpam {W} e.
Arguments DeleteIpam {W} e.
Arguments DescribeIpamScopes {W} e.

End ec2.

(** [resource_aws_vpc_ipam.go]. *)
Module vpc_ipam.
Import Go tf ec2.

Definition IpamStatusAvailable : string := "Available".
Definition InvalidIpamIdNotFound : string := "InvalidIpamId.NotFound".
Definition IpamDeleteTimeout : Z := 3 * 60.
Definition IpamDeleteDelay : Z := 5.

(** One element of the [operating_regions] set, typed by the schema. *)
Record operating_region : Type := mkOperatingRegion {
  region_name : string
}.

(** [*schema.ResourceData] of [aws_vpc_ipam], typed by its schema. *)
Record ResourceData : Type := mkResourceData {
  Id : string;
  IsNewResource : bool;
  arn : string;
  description : string;
  operating_regions : list operating_region;
  private_default_scope_id : string;
  public_default_scope_id : string;
  scope_count : Z
}.

Definition SetId (d : ResourceData) (id : string) : ResourceData :=
  mkResourceData id (IsNewResource d) (arn d) (description d)
                 (operating_regions d) (private_default_scope_id d)
                 (public_default_scope_id d) (scope_count d).

(** [*AWSClient], as far as these handlers use it. *)
Record AWSClient (W : Type) : Type := mkAWSClient {
  ec2conn : EC2 W;
  region : string
}.
Arguments mkAWSClient {W} _ _.
Arguments ec2conn {W} a.
Arguments region {W} a.

Definition findIpamById {W} (conn : EC2 W) (id : string) (st : remote W)
  : (option Ipam * option error) * remote W :=
  let input := mkDescribeIpamsInput [id] in
  let '((output, err), st) :=
    invoke "DescribeIpams" id (DescribeIpams conn) input st in
  match err with
  | Some _ => ((None, err), st)
  | None =>
      match output with
      | None => ((None, None), st)
      | Some out =>
          match Ipams out with
          | [] => ((None, None), st)
          | None :: _ => ((None, None), st)
          | Some ipam :: _ => ((Some ipam, None), st)
          end
      end
  end.

(** [flattenAwsIpamOperatingRegion] dereferences [RegionName]. *)
Definition flattenAwsIpamOperatingRegion (operatingRegion : IpamOperatingRegion)
  : result operating_region :=
  match RegionName operatingRegion with
  | Some r => Done (mkOperatingRegion r)
  | None => Panic "nil pointer dereference"
  end.

Fixpoint flattenAwsIpamOperatingRegions
         (operatingRegions : list IpamOperatingRegion)
  : result (list operating_region) :=
  match operatingRegions with
  | [] => Done []
  | operatingRegion :: rest =>
      match flattenAwsIpamOperatingRegion operatingRegion with
      | Panic m => Panic m
      | Done r =>
          match flattenAwsIpamOperatingRegions rest with
          | Panic m => Panic m
          | Done rs => Done (r :: rs)
          end
      end
  end.

Definition expandAwsIpamOperatingRegion (operatingRegion : operating_region)
  : AddIpamOperatingRegion :=
  mkAddIpamOperatingRegion (Some (region_name operatingRegion)).

Definition expandAwsIpamOperatingRegions
           (operatingRegions : list operating_region)
  : list AddIpamOperatingRegion :=
  map expandAwsIpamOperatingRegion operatingRegions.

Fixpoint expandAwsIpamOperatingRegionsDefaultRegion
         (operatingRegions : list operating_region) (current_region : string)
  : bool :=
  match operatingRegions with
  | [] => false
  | regionRaw :: rest =>
      if String.eqb (region_name regionRaw) current_region then true
      else expandAwsIpamOperatingRegionsDefaultRegion rest current_region
  end.

(** The [d.Set] calls of [resourceAwsVpcIpamRead]. *)
Definition Set_ipam (d : ResourceData) (ipam : Ipam)
           (regions : list operating_region) : ResourceData :=
  mkResourceData (Id d) (IsNewResource d)
                 (StringValue (IpamArn ipam))
                 (StringValue (Description ipam))
                 regions
                 (StringValue (PrivateDefaultScopeId ipam))
                 (StringValue (PublicDefaultScopeId ipam))
                 (match ScopeCount ipam with Some n => n | None => 0%Z end).

Definition resourceAwsVpcIpamRead {W} (meta : AWSClient W)
           (d : ResourceData) (st : remote W)
  : result (ResourceData * option error) * remote W :=
  let conn := ec2conn meta in
  let '((ipam, err), st) := findIpamById conn (Id d) st in
  if negb (is_nil err) && negb (ErrCodeEquals err InvalidIpamIdNotFound) then
    (Done (d, err), st)
  else if negb (IsNewResource d) && is_nil ipam then
    (Done (SetId d "", None), st)
  else
    match ipam with
    | None => (Panic "nil pointer dereference", st)   (* [ipam.IpamArn] *)
    | Some i =>
        match flattenAwsIpamOperatingRegions (OperatingRegions i) with
        | Panic m => (Panic m, st)
        | Done regions => (Done (Set_ipam d i regions, None), st)
        end
    end.

(** [resourceAwsVpcIpamCreate]; [uniqueId] is what [resource.UniqueId()]
    returns. *)
Definition resourceAwsVpcIpamCreate {W} (meta : AWSClient W)
           (uniqueId : string) (d : ResourceData) (st : remote W)
  : result (ResourceData * option error) * remote W :=
  let conn := ec2conn meta in
  let current_region := region meta in
  let input := mkCreateIpamInput (Some uniqueId) None [] in
  let input :=
    (* [d.GetOk("description")]: set and not the zero value *)
    if negb (String.eqb (description d) "") then
      mkCreateIpamInput (ClientToken input) (Some (description d))
                        (create_OperatingRegions input)
    else input in
  let operatingRegions := operating_regions d in
  if negb (expandAwsIpamOperatingRegionsDefaultRegion operatingRegions
                                                      current_region) then
    (Done (d, Some (ErrorString
                      ("Must include (" ++ current_region
                       ++ ") as a operating_region"))), st)
  else
    let input :=
      mkCreateIpamInput (ClientToken input) (create_Description input)
                        (expandAwsIpamOperatingRegions operatingRegions) in
    let '((output, err), st) :=
      invoke "CreateIpam" uniqueId (CreateIpam conn) input st in
    match err with
    | Some e => (Done (d, Some (Wrapped "Error creating ipam" e)), st)
    | None =>
        match output with
        | None => (Panic "nil pointer dereference", st)
        | Some out =>
            match created_Ipam out with
            | None => (Panic "nil pointer dereference", st)
            | Some i =>
                resourceAwsVpcIpamRead meta
                  (SetId d (StringValue (IpamId i))) st
            end
        end
    end.

Definition statusIpamStatus {W} (conn : EC2 W) (ipamId : string)
           (st : remote W)
  : (option Ipam * string * option error) * remote W :=
  let '((output, err), st) := findIpamById conn ipamId st in
  if ErrCodeEquals err InvalidIpamIdNotFound then
    ((output, InvalidIpamIdNotFound, None), st)
  else
    match err with
    | Some _ => ((None, EmptyString, err), st)
    | None => ((output, IpamStatusAvailable, None), st)
    end.

Definition waiterIpamDeleted {W} (WaitForState : waiter W) (conn : EC2 W)
           (ipamId : string) (timeout : Z) (st : remote W)
  : (option Ipam * option error) * remote W :=
  let stateConf :=
    mkStateChangeConf [IpamStatusAvailable] [InvalidIpamIdNotFound]
                      (statusIpamStatus conn ipamId) timeout
                      IpamDeleteDelay in
  WaitForState Ipam stateConf st.

Definition resourceAwsVpcIpamDelete {W} (WaitForState : waiter W)
           (meta : AWSClient W) (d : ResourceData) (st : remote W)
  : option error * remote W :=
  let conn := ec2conn meta in
  let input := mkDeleteIpamInput (Some (Id d)) in
  let '(err, st) := invoke "DeleteIpam" (Id d) (DeleteIpam conn) input st in
  match err with
  | Some e => (Some (Wrapped "error deleting IPAM" e), st)
  | None =>
      let '((_, err), st) :=
        waiterIpamDeleted WaitForState conn (Id d) IpamDeleteTimeout st in
      match err with
      | Some e =>
          if ErrCodeEquals err InvalidIpamIdNotFound then (None, st)
          else (Some (Wrapped "error waiting for IPAM to be deleted" e), st)
      | None => (None, st)
      end
  end.

(** The lookup of Read finds no IPAM: an empty answer, or the not-found
    error code. *)
Definition lookup_not_found {W} (conn : EC2 W) (d : ResourceData)
           (st : remote W) : bool :=
  let '((ipam, err), _) := findIpamById conn (Id d) st in
  is_nil ipam && (is_nil err || ErrCodeEquals err InvalidIpamIdNotFound).

(** The error of the delete request sent from state [st], and the remote
    state once it has been answered. *)
Definition delete_request_error {W} (conn : EC2 W) (d : ResourceData)
           (st : remote W) : option error :=
  fst (DeleteIpam conn (mkDeleteIpamInput (Some (Id d))) (world st)).

Definition after_delete_request {W} (conn : EC2 W) (d : ResourceData)
           (st : remote W) : remote W :=
  snd (invoke "DeleteIpam" (Id d) (DeleteIpam conn)
              (mkDeleteIpamInput (Some (Id d))) st).

End vpc_ipam.

(** The IPAM scope resource. *)
Module vpc_ipam_scope.
Import Go tf ec2.

Definition IpamScopeStatusAvailable : string := "Available".
Definition InvalidIpamScopeIdNotFound : string :=
  "InvalidIpamScopeId.NotFound".

(** [*schema.ResourceData] of [aws_vpc_ipam_scope], typed by its schema. *)
Record ResourceData : Type := mkResourceData {
  Id : string;
  IsNewResource : bool;
  arn : string;
  description : string;
  ipam_arn : string;
  ipam_id : string;
  ipam_scope_type : string;
  is_default : bool;
  pool_count : Z
}.

Definition SetId (d : ResourceData) (id : string) : ResourceData :=
  mkResourceData id (IsNewResource d) (arn d) (description d) (ipam_arn d)
                 (ipam_id d) (ipam_scope_type d) (is_default d)
                 (pool_count d).

Definition findIpamScopeById {W} (conn : EC2 W) (id : string)
           (st : remote W) : (option IpamScope * option error) * remote W :=
  let input := mkDescribeIpamScopesInput [id] in
  let '((output, err), st) :=
    invoke "DescribeIpamScopes" id (DescribeIpamScopes conn) input st in
  match err with
  | Some _ => ((None, err), st)
  | None =>
      match output with
      | None => ((None, None), st)
      | Some out =>
          match IpamScopes out with
          | [] => ((None, None), st)
          | None :: _ => ((None, None), st)
          | Some scope :: _ => ((Some scope, None), st)
          end
      end
  end.

(** The [d.Set] calls of [resourceAwsVpcIpamScopeRead]. *)
Definition Set_scope (d : ResourceData) (scope : IpamScope)
           (ipamId : string) : ResourceData :=
  mkResourceData (Id d) (IsNewResource d)
                 (StringValue (IpamScopeArn scope))
                 (StringValue (scope_Description scope))
                 (StringValue (scope_IpamArn scope))
                 ipamId
                 (StringValue (IpamScopeType scope))
                 (match IsDefault scope with Some b => b | None => false end)
                 (match PoolCount scope with Some n => n | None => 0%Z end).

Definition resourceAwsVpcIpamScopeRead {W} (conn : EC2 W)
           (d : ResourceData) (st : remote W)
  : result (ResourceData * option error) * remote W :=
  let '((scope, err), st) := findIpamScopeById conn (Id d) st in
  (* ipamId := strings.Split( *scope.IpamArn, "/")[1] *)
  match scope with
  | None => (Panic "nil pointer dereference", st)
  | Some sc =>
      match scope_IpamArn sc with
      | None => (Panic "nil pointer dereference", st)
      | Some ipamArn =>
          match nth_error (strings_Split ipamArn "/") 1 with
          | None => (Panic "index out of range", st)
          | Some ipamId =>
              if negb (is_nil err)
                 && negb (ErrCodeEquals err InvalidIpamScopeIdNotFound) then
                (Done (d, err), st)
              else if negb (IsNewResource d) && is_nil scope then
                (Done (SetId d "", None), st)
              else
                (Done (Set_scope d sc ipamId, None), st)
          end
      end
  end.

(** The lookup of Read finds no scope: an empty answer, or an error. *)
Definition lookup_not_found {W} (conn : EC2 W) (d : ResourceData)
           (st : remote W) : bool :=
  is_nil (fst (fst (findIpamScopeById conn (Id d) st))).

End vpc_ipam_scope.

(* ===================================================================== *)
(** ** Sample inputs *)
(* ===================================================================== *)

Module samples.
Import Go tf rds.
Open Scope string_scope.

(** The parameters of the second scenario of the specification. *)
Definition character_set_client : rdsParameter :=
  mkParameter (Some "character_set_client"%string) (Some "utf8"%string)
              (Some "immediate"%string) None.

Definition character_set_server : rdsParameter :=
  mkParameter (Some "character_set_server"%string) (Some "utf8"%string)
              (Some "pending-reboot"%string) None.

Definition max_connections : rdsParameter :=
  mkParameter (Some "max_connections"%string) (Some "100"%string)
              (Some "immediate"%string) None.

Definition scenario2 : slice rdsParameter :=
  Some [character_set_client; character_set_server; max_connections].

(** Two parameters that fit in one call, the pending-reboot one first. *)
Definition reboot_first : slice rdsParameter :=
  Some [character_set_server; character_set_client].

(** A remote service scripted by the answers it gives to the successive
    requests; when the script is over every request succeeds with an empty
    answer. *)
Definition script (A : Type) : Type := list A.

Definition next_answer {A} (default : A) (w : script A) : A * script A :=
  match w with
  | [] => (default, [])
  | a :: w' => (a, w')
  end.

Definition start {A} (w : script A) : remote (script A) := mkRemote w [].

(** RDS: the describe call always answers "not found"; the delete calls
    answer by the script. *)
Definition rds_not_found : error :=
  AwsError "DBParameterGroupNotFound" "DBParameterGroup not found: pg-1".

Definition rds_conn : RDSConn (script (option error)) :=
  mkRDSConn (fun _ w => ((None, Some rds_not_found), w))
            (fun _ w => next_answer None w).

Definition read_nothing_more {W} (g : DBParameterGroup)
           (d : rds.ResourceData) (st : remote W)
  : result (rds.ResourceData * Diagnostics) * remote W :=
  (Done (d, []), st).

Definition new_group : rds.ResourceData :=
  rds.mkResourceData "pg-1" true "" "pg-1" "mysql8.0" "Managed by Terraform"
                     [] [].

Definition old_group : rds.ResourceData :=
  rds.mkResourceData "pg-1" false "" "pg-1" "mysql8.0" "Managed by Terraform"
                     [] [].

Definition group_gone : error :=
  TypedFault "DBParameterGroupNotFoundFault" "DBParameterGroup not found".

Definition group_in_use : error :=
  TypedFault "InvalidDBParameterGroupStateFault" "parameter group in use".

(** EC2: no IPAM and no scope is ever found; create and delete answer by
    the script (an error, or success). *)
Definition ec2_conn : ec2.EC2 (script (option error)) :=
  ec2.mkEC2
    (fun _ w => ((Some (ec2.mkDescribeIpamsOutput []), None), w))
    (fun _ w =>
       let '(e, w') := next_answer None w in
       ((match e with
         | Some _ => None
         | None =>
             Some (ec2.mkCreateIpamOutput
                     (Some (ec2.mkIpam None (Some "ipam-1"%string) None []
                                       None None None)))
         end, e), w'))
    (fun _ w => next_answer None w)
    (fun _ w => ((Some (ec2.mkDescribeIpamScopesOutput []), None), w)).

Definition client : vpc_ipam.AWSClient (script (option error)) :=
  vpc_ipam.mkAWSClient ec2_conn "us-east-1".

Definition ipam_gone : error :=
  AwsError "InvalidIpamId.NotFound" "The ipam ID 'ipam-1' does not exist".

Definition ipam_busy : error :=
  AwsError "IncorrectState" "The IPAM is being modified".

Definition old_ipam : vpc_ipam.ResourceData :=
  vpc_ipam.mkResourceData "ipam-1" false "" ""
                          [vpc_ipam.mkOperatingRegion "us-east-1"] "" "" 0.

Definition ipam_elsewhere : vpc_ipam.ResourceData :=
  vpc_ipam.mkResourceData "" true "" ""
                          [vpc_ipam.mkOperatingRegion "eu-west-1"] "" "" 0.

Definition ipam_here : vpc_ipam.ResourceData :=
  vpc_ipam.mkResourceData "" true "" ""
                          [vpc_ipam.mkOperatingRegion "eu-west-1";
                           vpc_ipam.mkOperatingRegion "us-east-1"] "" "" 0.

Definition old_scope : vpc_ipam_scope.ResourceData :=
  vpc_ipam_scope.mkResourceData "ipam-scope-1" false "" "" "" "ipam-1" ""
                                false 0.

(** A waiter that polls once: the refresh error if any, success on a
    target state, a timeout otherwise. *)
Definition poll_once {W} : waiter W :=
  fun R conf st =>
    let '((r, state, err), st') := Refresh conf st in
    match err with
    | Some _ => ((None, err), st')
    | None =>
        if existsb (String.eqb state) (Target conf) then ((r, None), st')
        else ((None, Some TimeoutError), st')
    end.

End samples.

(* ===================================================================== *)
(** ** RDS parameter group: the rest of Update and Read *)
(* ===================================================================== *)

Module rds_update.
Import Go tf rds.

(** SDK shapes of the modify and reset calls. *)
Record ModifyDBParameterGroupInput : Type := mkModifyInput {
  modify_DBParameterGroupName : option string;
  modify_Parameters : slice rdsParameter
}.

Record ResetDBParameterGroupInput : Type := mkResetInput {
  reset_DBParameterGroupName : option string;
  reset_Parameters : slice rdsParameter;
  ResetAllParameters : option bool
}.

(** The two operations of the RDS connection that Update uses; their
    outputs are discarded by the handler, so only the error is kept. *)
Record RDSUpdateConn (W : Type) : Type := mkRDSUpdateConn {
  ModifyDBParameterGroupWithContext :
    ModifyDBParameterGroupInput -> W -> option error * W;
  ResetDBParameterGroupWithContext :
    ResetDBParameterGroupInput -> W -> option error * W
}.
Arguments mkRDSUpdateConn {W} _ _.
Arguments ModifyDBParameterGroupWithContext {W} r.
Arguments ResetDBParameterGroupWithContext {W} r.

(** The loop [for parameters != nil { ... }] of
    [resourceParameterGroupUpdate] with its modify calls; [name] is
    [d.Get("name")].  [Some (Some e, _)]: the handler returned with the
    error [e] of a modify call; [Some (None, _)]: the loop ran to its end;
    [None]: [fuel] iterations were not enough. *)
Fixpoint modifyParameters {W} (conn : RDSUpdateConn W) (name : string)
         (fuel : nat) (parameters : slice rdsParameter) (st : remote W)
  : option (option error * remote W) :=
  match parameters with
  | None => Some (None, st)
  | Some _ =>
      match fuel with
      | O => None
      | S fuel' =>
          let '(paramsToModify, parameters') :=
            ResourceParameterModifyChunk parameters maxParamModifyChunk in
          let modifyOpts := mkModifyInput (Some name) paramsToModify in
          let '(err, st') :=
            invoke "ModifyDBParameterGroup" name
                   (ModifyDBParameterGroupWithContext conn) modifyOpts st in
          match err with
          | Some _ => Some (err, st')
          | None => modifyParameters conn name fuel' parameters' st'
          end
      end
  end.

(** [if len(parameters) > 0 { for parameters != nil { ... } }]. *)
Definition modifyChanged {W} (conn : RDSUpdateConn W) (name : string)
           (fuel : nat) (parameters : slice rdsParameter) (st : remote W)
  : option (option error * remote W) :=
  if (len parameters >? 0)%Z then modifyParameters conn name fuel parameters st
  else Some (None, st).

(** The loop [for resetParameters != nil { ... }] with its reset calls;
    same reading of the result as for [modifyParameters]. *)
Fixpoint resetRemoved {W} (conn : RDSUpdateConn W) (name : string)
         (fuel : nat) (resetParameters : slice rdsParameter) (st : remote W)
  : option (option error * remote W) :=
  match resetParameters with
  | None => Some (None, st)
  | Some l =>
      match fuel with
      | O => None
      | S fuel' =>
          let '(paramsToReset, resetParameters') :=
            if (len resetParameters <=? maxParamModifyChunk)%Z then
              (resetParameters, None)
            else
              (Some (firstn (Z.to_nat maxParamModifyChunk) l),
               Some (skipn (Z.to_nat maxParamModifyChunk) l)) in
          let resetOpts := mkResetInput (Some name) paramsToReset (Some false) in
          let '(err, st') :=
            invoke "ResetDBParameterGroup" name
                   (ResetDBParameterGroupWithContext conn) resetOpts st in
          match err with
          | Some _ => Some (err, st')
          | None => resetRemoved conn name fuel' resetParameters' st'
          end
      end
  end.

(** [if len(resetParameters) > 0 { for resetParameters != nil { ... } }]. *)
Definition resetChanged {W} (conn : RDSUpdateConn W) (name : string)
           (fuel : nat) (resetParameters : slice rdsParameter) (st : remote W)
  : option (option error * remote W) :=
  if (len resetParameters >? 0)%Z then resetRemoved conn name fuel resetParameters st
  else Some (None, st).

(** Sending a list of requests one after the other, up to the first one
    that fails: what the two loops are meant to do with their batches. *)
Fixpoint send_each {W I} (name key : string) (op : I -> W -> option error * W)
         (inputs : list I) (st : remote W) : option error * remote W :=
  match inputs with
  | [] => (None, st)
  | input :: rest =>
      match invoke name key op input st with
      | (Some e, st') => (Some e, st')
      | (None, st') => send_each name key op rest st'
      end
  end.

(** The Go map [toRemove], [map[string]*rds.Parameter]: an association
    list with one entry per key. *)
Definition gomap : Type := list (string * rdsParameter).

(** [m[k] = v]. *)
Fixpoint map_assign (k : string) (v : rdsParameter) (m : gomap) : gomap :=
  match m with
  | [] => [(k, v)]
  | (k', v') :: m' =>
      if String.eqb k' k then (k, v) :: m'
      else (k', v') :: map_assign k v m'
  end.

(** [delete(m, k)]. *)
Definition map_delete (k : string) (m : gomap) : gomap :=
  filter (fun kv => negb (String.eqb (fst kv) k)) m.

(** The bodies of the two loops that fill [toRemove]: a named old
    parameter is entered under its name; the name of a new parameter is
    deleted. *)
Definition enter_old (m : gomap) (p : rdsParameter) : gomap :=
  match ParameterName p with
  | Some n => map_assign n p m
  | None => m
  end.

Definition delete_new (m : gomap) (p : rdsParameter) : gomap :=
  match ParameterName p with
  | Some n => map_delete n m
  | None => m
  end.

(** [toRemove] after the two loops; [old] and [new] are
    [expandParameters(os.List())] and [expandParameters(ns.List())]. *)
Definition toRemove (old new : list rdsParameter) : gomap :=
  fold_left delete_new new (fold_left enter_old old []).

(** What the first loop keeps true of the map, [seen] being the old
    parameters met so far. *)
Definition entered (seen : list rdsParameter) (m : gomap) : Prop :=
  NoDup (map fst m) /\
  (forall k v, In (k, v) m -> In v seen /\ ParameterName v = Some k) /\
  (forall n, In (Some n) (map ParameterName seen) -> In n (map fst m)).

(** [for _, v := range toRemove { resetParameters = append(...) }]: Go
    ranges over a map in an order of its choosing, so [resetParameters]
    may be any arrangement of the values. *)
Definition ranged_over (m : gomap) (resetParameters : list rdsParameter)
  : Prop :=
  Permutation resetParameters (map snd m).

(** The inner loop of Read's parameter selection: look for a configured
    parameter with the name of [param]; [Return] is the [break]. *)
Definition find_in_config (param : rdsParameter) (all_i : list rdsParameter)
           (cp : rdsParameter) (userParams : slice rdsParameter)
  : flow (slice rdsParameter) (slice rdsParameter) :=
  if is_nil (ParameterName cp) then
    Next userParams
  else if String.eqb (StringValue (ParameterName cp))
                     (StringValue (ParameterName param)) then
    Return (append userParams [param])
  else
    Next userParams.

(** The outer loop of the selection. *)
Definition keep_body (confParams : list rdsParameter)
           (all_i : list rdsParameter) (param : rdsParameter)
           (userParams : slice rdsParameter)
  : flow (slice rdsParameter) (slice rdsParameter) :=
  if is_nil (Source param) || is_nil (ParameterName param) then
    Next userParams
  else if String.eqb (StringValue (Source param)) "user" then
    Next (append userParams [param])
  else
    match range (find_in_config param) confParams userParams with
    | Next u => Next u
    | Return u => Next u
    end.

(** The computation of [userParams] in [resourceParameterGroupRead]:
    [configLen] is [configParams.Len()], [confParams] is
    [expandParameters(configParams.List())] and [parameters] what the
    describe-parameters pages returned. *)
Definition selectUserParams (configLen : Z) (confParams : list rdsParameter)
           (parameters : slice rdsParameter) : slice rdsParameter :=
  if (configLen <? 1)%Z then
    parameters
  else
    match range (keep_body confParams) (elems parameters) None with
    | Next u => u
    | Return u => u
    end.

(** What the comment above that loop asks for: a parameter goes to the
    state when it has a source and a name and either its source is "user"
    or its name is that of a configured parameter. *)
Definition persisted (confParams : list rdsParameter) (param : rdsParameter)
  : bool :=
  negb (is_nil (Source param)) && negb (is_nil (ParameterName param))
  && (String.eqb (StringValue (Source param)) "user"
      || existsb (fun cp =>
                    negb (is_nil (ParameterName cp))
                    && String.eqb (StringValue (ParameterName cp))
                                  (StringValue (ParameterName param)))
                 confParams).

End rds_update.

(* ===================================================================== *)
(** ** VPC IPAM: Update *)
(* ===================================================================== *)

Module vpc_ipam_update.
Import Go tf ec2 vpc_ipam.

Record RemoveIpamOperatingRegion : Type := mkRemoveIpamOperatingRegion {
  remove_RegionName : option string
}.

Record ModifyIpamInput : Type := mkModifyIpamInput {
  modify_IpamId : option string;
  modify_Description : option string;
  AddOperatingRegions : slice AddIpamOperatingRegion;
  RemoveOperatingRegions : slice RemoveIpamOperatingRegion
}.

(** [conn.ModifyIpam]; its output is discarded by the handler. *)
Definition ModifyIpamOp (W : Type) : Type :=
  ModifyIpamInput -> W -> option error * W.

(** What Update reads of [*schema.ResourceData]: the identifier and the
    recorded and the declared values of the two attributes it looks at.
    A [schema.Set] of the plugin SDK is held as the list of its elements;
    the SDK orders [List()] by a hash of the elements, here the order is
    that of the list. *)
Record ResourceChange : Type := mkResourceChange {
  change_Id : string;
  description_old : string;
  description_new : string;
  operating_regions_old : list operating_region;
  operating_regions_new : list operating_region
}.

Definition has_region (s : list operating_region) (r : operating_region)
  : bool :=
  existsb (fun r' => String.eqb (region_name r') (region_name r)) s.

(** [ns.Difference(os).List()]. *)
Definition Difference (ns os : list operating_region)
  : list operating_region :=
  filter (fun r => negb (has_region os r)) ns.

(** [d.HasChange("description")] and [d.HasChange("operating_regions")]
    (two sets are equal when they hold the same elements). *)
Definition description_changed (d : ResourceChange) : bool :=
  negb (String.eqb (description_old d) (description_new d)).

Definition operating_regions_changed (d : ResourceChange) : bool :=
  negb (forallb (has_region (operating_regions_new d))
                (operating_regions_old d)
        && forallb (has_region (operating_regions_old d))
                   (operating_regions_new d)).

Definition expandAwsIpamOperatingRegionsUpdateAddRegion
           (operatingRegion : operating_region) : AddIpamOperatingRegion :=
  mkAddIpamOperatingRegion (Some (region_name operatingRegion)).

Definition expandAwsIpamOperatingRegionsUpdateAddRegions
           (operatingRegions : list operating_region)
  : list AddIpamOperatingRegion :=
  map expandAwsIpamOperatingRegionsUpdateAddRegion operatingRegions.

Definition expandAwsIpamOperatingRegionsUpdateDeleteRegion
           (operatingRegion : operating_region) : RemoveIpamOperatingRegion :=
  mkRemoveIpamOperatingRegion (Some (region_name operatingRegion)).

Definition expandAwsIpamOperatingRegionsUpdateDeleteRegions
           (operatingRegions : list operating_region)
  : list RemoveIpamOperatingRegion :=
  map expandAwsIpamOperatingRegionsUpdateDeleteRegion operatingRegions.

(** [resourceAwsVpcIpamUpdate].  The request is sent only inside
    [if d.HasChange("operating_regions")]; the handler does not read the
    resource back. *)
Definition resourceAwsVpcIpamUpdate {W} (ModifyIpam : ModifyIpamOp W)
           (d : ResourceChange) (st : remote W) : option error * remote W :=
  let input := mkModifyIpamInput (Some (change_Id d)) None None None in
  let input :=
    if description_changed d then
      mkModifyIpamInput (modify_IpamId input) (Some (description_new d))
                        (AddOperatingRegions input)
                        (RemoveOperatingRegions input)
    else input in
  if operating_regions_changed d then
    let os := operating_regions_old d in
    let ns := operating_regions_new d in
    let operatingRegionUpdateAdd :=
      expandAwsIpamOperatingRegionsUpdateAddRegions (Difference ns os) in
    let operatingRegionUpdateRemove :=
      expandAwsIpamOperatingRegionsUpdateDeleteRegions (Difference os ns) in
    let input :=
      if negb (Nat.eqb (List.length operatingRegionUpdateAdd) 0) then
        mkModifyIpamInput (modify_IpamId input) (modify_Description input)
                          (Some operatingRegionUpdateAdd)
                          (RemoveOperatingRegions input)
      else input in
    let input :=
      if negb (Nat.eqb (List.length operatingRegionUpdateRemove) 0) then
        mkModifyIpamInput (modify_IpamId input) (modify_Description input)
                          (AddOperatingRegions input)
                          (Some operatingRegionUpdateRemove)
      else input in
    let '(err, st') :=
      invoke "ModifyIpam" (change_Id d) ModifyIpam input st in
    match err with
    | Some e =>
        (Some (Wrapped "Error modifying operating regions to ipam" e), st')
    | None => (None, st')
    end
  else
    (None, st).

(** The names of the regions that a request adds and removes. *)
Definition added_names (input : ModifyIpamInput) : list string :=
  map (fun r => StringValue (add_RegionName r))
      (elems (AddOperatingRegions input)).

Definition removed_names (input : ModifyIpamInput) : list string :=
  map (fun r => StringValue (remove_RegionName r))
      (elems (RemoveOperatingRegions input)).

End vpc_ipam_update.

(* ===================================================================== *)
(** ** Further sample inputs *)
(* ===================================================================== *)

Module samples_update.
Import Go tf rds rds_update.
Open Scope string_scope.

(** A service whose modify and reset calls answer by the script. *)
Definition update_conn : RDSUpdateConn (samples.script (option error)) :=
  mkRDSUpdateConn (fun _ w => samples.next_answer None w)
                  (fun _ w => samples.next_answer None w).

Definition throttled : error := AwsError "Throttling" "Rate exceeded".

(** A service whose describe call answers without error and without any
    group, and one whose delete call always finds the group in use. *)
Definition empty_answer_conn : RDSConn (samples.script (option error)) :=
  mkRDSConn (fun _ w => ((Some (mkDescribeOutput []), None), w))
            (fun _ w => (None, w)).

Definition busy_conn : RDSConn (samples.script (option error)) :=
  mkRDSConn (fun _ w => ((Some (mkDescribeOutput []), None), w))
            (fun _ w => (Some samples.group_in_use, w)).

Definition user_param (n : string) : rdsParameter :=
  mkParameter (Some n) (Some "1") (Some "immediate") (Some "user").

Definition default_param (n : string) : rdsParameter :=
  mkParameter (Some n) (Some "1") (Some "immediate") (Some "engine-default").

(** An IPAM whose region is moved from [eu-west-1] to [us-east-1], and one
    whose description alone is changed. *)
Definition regions_moved : vpc_ipam_update.ResourceChange :=
  vpc_ipam_update.mkResourceChange
    "ipam-1" "" ""
    [vpc_ipam.mkOperatingRegion "eu-west-1"]
    [vpc_ipam.mkOperatingRegion "us-east-1"].

Definition description_edited : vpc_ipam_update.ResourceChange :=
  vpc_ipam_update.mkResourceChange
    "ipam-1" "old" "new"
    [vpc_ipam.mkOperatingRegion "us-east-1"]
    [vpc_ipam.mkOperatingRegion "us-east-1"].

(** A scope of the IPAM [ipam-1] and a service that finds it. *)
Definition a_scope : ec2.IpamScope :=
  ec2.mkIpamScope
    (Some "arn:aws:ec2::123456789012:ipam-scope/ipam-scope-1")
    (Some "ipam-scope-1") None
    (Some "arn:aws:ec2::123456789012:ipam/ipam-1")
    (Some "private") (Some false) (Some 0%Z).

Definition scope_conn : ec2.EC2 (samples.script (option error)) :=
  ec2.mkEC2
    (fun _ w => ((Some (ec2.mkDescribeIpamsOutput []), None), w))
    (fun _ w => ((None, Some throttled), w))
    (fun _ w => samples.next_answer None w)
    (fun _ w => ((Some (ec2.mkDescribeIpamScopesOutput [Some a_scope]),
                  None), w)).

(** A client whose create request is refused, and one whose create request
    makes [an_ipam], found by the lookups. *)
Definition failing_client : vpc_ipam.AWSClient (samples.script (option error)) :=
  vpc_ipam.mkAWSClient scope_conn "us-east-1".




Definition modify_ipam : vpc_ipam_update.ModifyIpamOp
                           (samples.script (option error)) :=
  fun _ w => samples.next_answer None w.

End samples_update.

(* ===================================================================== *)
(** ** The string test of pass 1 *)
(* ===================================================================== *)

Module go_facts.
Import Go.

Lemma prefix_app (sub s : string) :
  String.prefix sub s = true <-> exists post, s = (sub ++ post)%string.
Proof.
  revert s. induction sub as [|c sub IH]; intros s.
  - split; [intros _; exists s; reflexivity |].
    intros _. destruct s; reflexivity.
  - destruct s as [|c' s']; simpl.
    + split; [discriminate | intros [post E]; discriminate E].
    + destruct (Ascii.ascii_dec c c') as [->|Hne].
      * rewrite IH. split; intros [post E]; exists post.
        -- now rewrite E.
        -- now injection E.
      * split; [discriminate|].
        intros [post E]. injection E as E1 E2. congruence.
Qed.

(** [strings_Contains s sub] holds exactly when [sub] occurs in [s]. *)
Lemma strings_Contains_spec (s sub : string) :
  strings_Contains s sub = true
  <-> exists pre post, s = (pre ++ sub ++ post)%string.
Proof.
  induction s as [|c s IH]; cbn [strings_Contains].
  - rewrite orb_false_r, prefix_app. split.
    + intros [post E]. exists EmptyString, post. exact E.
    + intros [[|c pre] [post E]]; [|discriminate E].
      exists post. exact E.
  - rewrite orb_true_iff, prefix_app, IH. split.
    + intros [[post E]|[pre [post E]]].
      * exists EmptyString, post. exact E.
      * exists (String c pre), post. simpl. now rewrite E.
    + intros [[|c' pre] [post E]].
      * left. exists post. exact E.
      * right. simpl in E. injection E as _ E. exists pre, post. exact E.
Qed.

End go_facts.

(* ===================================================================== *)
(** ** Properties of the batch planner *)
(* ===================================================================== *)

Module planner.
Import Go tf rds.

Lemma elems_append {A} (s : slice A) (xs : list A) :
  elems (append s xs) = elems s ++ xs.
Proof.
  destruct s as [l|]; destruct xs; reflexivity.
Qed.

Lemma append_cons {A} (s : slice A) (x : A) (xs : list A) :
  append s (x :: xs) = Some (elems s ++ x :: xs).
Proof.
  destruct s; reflexivity.
Qed.

Lemma pass1_is_select K l p st :
  pass1_body K l p st = select_body is_charset K l p st.
Proof. destruct st; reflexivity. Qed.

Lemma pass2_is_select K l p st :
  pass2_body K l p st = select_body is_immediate K l p st.
Proof. destruct st; reflexivity. Qed.

Lemma pass3_is_select K l p st :
  pass3_body K l p st = select_body (fun _ => true) K l p st.
Proof. destruct st; reflexivity. Qed.

Lemma range_ext {A S R} (f g : list A -> A -> S -> flow S R) l :
  (forall l' p s, f l' p s = g l' p s) ->
  forall s, range f l s = range g l s.
Proof.
  intros E. induction l as [|p t IH]; intros s; simpl.
  - reflexivity.
  - rewrite E. destruct (g (p :: t) p s); auto.
Qed.

(** One pass, started with a chunk that is not over capacity: either it
    returns with a full chunk, having scanned [pre] and left a non-empty
    [tail], or it runs to the end. *)
Lemma range_select sel K :
  forall l mc rem,
    (len mc <= K)%Z ->
    (exists pre tail mc',
        l = pre ++ tail /\ tail <> [] /\
        range (select_body sel K) l (mc, rem)
        = Return (mc', Some (elems rem ++ skipped sel pre ++ tail)) /\
        elems mc' = elems mc ++ filter sel pre /\
        len mc' = K)
    \/
    (exists mc' rem',
        range (select_body sel K) l (mc, rem) = Next (mc', rem') /\
        elems mc' = elems mc ++ filter sel l /\
        elems rem' = elems rem ++ skipped sel l /\
        (len mc' <= K)%Z).
Proof.
  induction l as [|p t IH]; intros mc rem Hc.
  - right. exists mc, rem. simpl. rewrite !app_nil_r. auto.
  - simpl. destruct (len mc >=? K)%Z eqn:Hfull.
    + left. exists [], (p :: t), mc. simpl.
      rewrite append_cons, app_nil_r.
      repeat split; auto; try discriminate. lia.
    + assert (Hlt : (len mc < K)%Z) by lia.
      destruct (sel p) eqn:Hsel.
      * destruct (IH (append mc [p]) rem) as
          [(pre & tail & mc' & El & Ht & Er & Em & Ek)
          |(mc' & rem' & Er & Em & Erem & Ek)].
        { unfold len in *. rewrite elems_append, length_app. simpl. lia. }
        -- left. exists (p :: pre), tail, mc'.
           unfold skipped in *. simpl. rewrite ?Hsel. simpl.
           rewrite Er, Em, elems_append, <- app_assoc. simpl.
           subst t. auto.
        -- right. exists mc', rem'.
           unfold skipped in *. simpl. rewrite ?Hsel. simpl.
           rewrite Er, Em, Erem, elems_append, <- app_assoc. auto.
      * destruct (IH mc (append rem [p])) as
          [(pre & tail & mc' & El & Ht & Er & Em & Ek)
          |(mc' & rem' & Er & Em & Erem & Ek)]; [assumption| |].
        -- left. exists (p :: pre), tail, mc'.
           unfold skipped in *. simpl. rewrite ?Hsel. simpl.
           rewrite Er, Em, elems_append, <- app_assoc. simpl.
           subst t. auto.
        -- right. exists mc', rem'.
           unfold skipped in *. simpl. rewrite ?Hsel. simpl.
           rewrite Er, Em, Erem, elems_append, <- app_assoc. auto.
Qed.

Lemma filter_all (l : list rdsParameter) : filter (fun _ => true) l = l.
Proof.
  induction l as [|x l IH]; simpl; congruence.
Qed.

Lemma skipped_all (l : list rdsParameter) : skipped (fun _ => true) l = [].
Proof.
  induction l as [|x l IH]; simpl; auto.
Qed.

Lemma length_filter_skipped sel (l : list rdsParameter) :
  (List.length (filter sel l) + List.length (skipped sel l))%nat
  = List.length l.
Proof.
  unfold skipped.
  induction l as [|x l IH]; simpl; auto.
  destruct (sel x); simpl; lia.
Qed.

Lemma chunk_small all K :
  (len all <= K)%Z -> ResourceParameterModifyChunk all K = (all, None).
Proof.
  intros H. unfold ResourceParameterModifyChunk.
  apply Z.leb_le in H. now rewrite H.
Qed.

(** A call on more than [K] elements returns from inside one of the three
    loops, with a chunk of [K] elements and a non-nil remainder. *)
Lemma chunk_large all K :
  (0 <= K)%Z -> (K < len all)%Z ->
  exists batch rest,
    ResourceParameterModifyChunk all K = (batch, Some rest) /\
    len batch = K /\ rest <> [] /\
    exhausted_in (elems all) (elems batch) rest.
Proof.
  intros HK Hlen. unfold ResourceParameterModifyChunk.
  assert (Hleb : (len all <=? K)%Z = false) by (apply Z.leb_gt; lia).
  rewrite Hleb. clear Hleb.
  rewrite (range_ext _ _ _ (pass1_is_select K)).
  destruct (range_select is_charset K (elems all) None None) as
    [(pre & tail & mc' & El & Ht & Er & Em & Ek)
    |(mc1 & rem1 & Er & Em1 & Erem1 & Ek1)]; [exact HK| |].
  { unfold chunk_state, slice in *. rewrite Er. simpl in *.
    exists mc', (skipped is_charset pre ++ tail).
    repeat split; auto.
    - intros E. apply app_eq_nil in E. tauto.
    - now apply in_pass1 with pre tail. }
  unfold chunk_state, slice in *. rewrite Er. simpl in Em1, Erem1.
  rewrite (range_ext _ _ _ (pass2_is_select K)).
  destruct (range_select is_immediate K (elems rem1) mc1 None) as
    [(pre & tail & mc' & El & Ht & Er2 & Em & Ek)
    |(mc2 & rem2 & Er2 & Em2 & Erem2 & Ek2)]; [exact Ek1| |].
  { unfold chunk_state, slice in *. rewrite Er2. simpl in *.
    exists mc', (skipped is_immediate pre ++ tail).
    repeat split; auto.
    - intros E. apply app_eq_nil in E. tauto.
    - apply in_pass2 with pre tail; congruence. }
  unfold chunk_state, slice in *. rewrite Er2. simpl in Erem2.
  rewrite (range_ext _ _ _ (pass3_is_select K)).
  destruct (range_select (fun _ => true) K (elems rem2) mc2 None) as
    [(pre & tail & mc' & El & Ht & Er3 & Em & Ek)
    |(mc3 & rem3 & Er3 & Em3 & Erem3 & Ek3)]; [exact Ek2| |].
  { unfold chunk_state, slice in *. rewrite Er3. simpl.
    rewrite skipped_all. simpl.
    rewrite filter_all in Em.
    exists mc', tail. repeat split; auto.
    apply in_pass3 with pre tail; try congruence.
    rewrite Em, Em2, Em1, Erem1, <- app_assoc. reflexivity. }
  exfalso.
  rewrite filter_all in Em3.
  assert (E : List.length (elems mc3) = List.length (elems all)).
  { rewrite Em3, Em2, Erem2, Em1, Erem1, !length_app.
    pose proof (length_filter_skipped is_charset (elems all)).
    pose proof (length_filter_skipped is_immediate
                                      (skipped is_charset (elems all))).
    lia. }
  unfold len in *. lia.
Qed.

(** *** Partition *)

Lemma filter_skipped_perm sel (l : list rdsParameter) :
  Permutation (filter sel l ++ skipped sel l) l.
Proof.
  unfold skipped.
  induction l as [|x l IH]; simpl; auto.
  destruct (sel x); simpl.
  - now constructor.
  - symmetry. apply Permutation_cons_app. now symmetry.
Qed.

Lemma exhausted_perm l batch rest :
  exhausted_in l batch rest -> Permutation (batch ++ rest) l.
Proof.
  intros [pre tail El Eb Er | pre tail El Eb Er | pre tail El Eb Er]; subst.
  - rewrite app_assoc. apply Permutation_app_tail, filter_skipped_perm.
  - transitivity (filter is_charset l ++ skipped is_charset l);
      [|apply filter_skipped_perm].
    rewrite El, <- app_assoc. apply Permutation_app_head.
    rewrite app_assoc. apply Permutation_app_tail, filter_skipped_perm.
  - transitivity (filter is_charset l ++ skipped is_charset l);
      [|apply filter_skipped_perm].
    rewrite <- !app_assoc. apply Permutation_app_head.
    rewrite <- El. apply filter_skipped_perm.
Qed.

(** *** Arrival order of the remainder *)

Lemma arrival_refl {A} (l : list A) : in_arrival_order l l.
Proof.
  induction l; constructor; auto.
Qed.

Lemma arrival_trans {A} (a b c : list A) :
  in_arrival_order a b -> in_arrival_order b c -> in_arrival_order a c.
Proof.
  intros Hab Hbc. revert a Hab.
  induction Hbc as [|x r l Hrl IH|x r l Hrl IH]; intros a Hab.
  - exact Hab.
  - inversion Hab; subst.
    + apply arrival_keep. auto.
    + apply arrival_drop. auto.
  - apply arrival_drop. auto.
Qed.

Lemma arrival_skipped sel (l : list rdsParameter) :
  in_arrival_order (skipped sel l) l.
Proof.
  unfold skipped.
  induction l as [|x l IH]; simpl.
  - constructor.
  - destruct (sel x); simpl; constructor; auto.
Qed.

Lemma arrival_app {A} (r1 l1 r2 l2 : list A) :
  in_arrival_order r1 l1 -> in_arrival_order r2 l2 ->
  in_arrival_order (r1 ++ r2) (l1 ++ l2).
Proof.
  intros H1 H2. induction H1; simpl; auto; constructor; auto.
Qed.

Lemma arrival_tail {A} (pre tail : list A) :
  in_arrival_order tail (pre ++ tail).
Proof.
  induction pre; simpl.
  - apply arrival_refl.
  - constructor; auto.
Qed.

Lemma exhausted_arrival l batch rest :
  exhausted_in l batch rest -> in_arrival_order rest l.
Proof.
  intros [pre tail El Eb Er | pre tail El Eb Er | pre tail El Eb Er]; subst.
  - apply arrival_app; [apply arrival_skipped | apply arrival_refl].
  - apply arrival_trans with (skipped is_charset l);
      [|apply arrival_skipped].
    rewrite El.
    apply arrival_app; [apply arrival_skipped | apply arrival_refl].
  - apply arrival_trans with (skipped is_charset l);
      [|apply arrival_skipped].
    apply arrival_trans with (skipped is_immediate (skipped is_charset l));
      [|apply arrival_skipped].
    rewrite El. apply arrival_tail.
Qed.

(** *** Priority order of the batch *)

Lemma firstn_length_app {A} (b x : list A) :
  firstn (List.length b) (b ++ x) = b.
Proof.
  rewrite firstn_app, firstn_all, Nat.sub_diag. simpl. apply app_nil_r.
Qed.

Lemma exhausted_planned l batch rest :
  exhausted_in l batch rest ->
  batch = firstn (List.length batch) (planned_order l).
Proof.
  unfold planned_order.
  intros [pre tail El Eb Er | pre tail El Eb Er | pre tail El Eb Er].
  - rewrite El, filter_app, <- app_assoc, <- Eb.
    now rewrite firstn_length_app.
  - rewrite El, filter_app, <- app_assoc, app_assoc, <- Eb.
    now rewrite firstn_length_app.
  - rewrite El.
    replace (filter is_charset l
             ++ filter is_immediate (skipped is_charset l) ++ pre ++ tail)
      with (batch ++ tail) by (rewrite Eb, <- !app_assoc; reflexivity).
    now rewrite firstn_length_app.
Qed.

Lemma by_priority_const c b :
  Forall (fun p => priority p = c) b -> by_priority b.
Proof.
  intros H i j p q Hp Hq Hlt.
  rewrite Forall_forall in H.
  apply nth_error_In in Hp, Hq.
  rewrite (H _ Hp), (H _ Hq) in Hlt. lia.
Qed.

Lemma by_priority_app x y :
  (forall p q, In p x -> In q y -> (priority p <= priority q)%nat) ->
  by_priority x -> by_priority y -> by_priority (x ++ y).
Proof.
  intros Hxy Hx Hy i j p q Hp Hq Hlt.
  rewrite nth_error_app in Hp, Hq.
  destruct (Nat.ltb i (List.length x)) eqn:Ei;
    destruct (Nat.ltb j (List.length x)) eqn:Ej.
  - eapply Hx; eauto.
  - apply Nat.ltb_lt in Ei. apply Nat.ltb_ge in Ej. lia.
  - apply nth_error_In in Hp, Hq.
    specialize (Hxy _ _ Hq Hp). lia.
  - apply Nat.ltb_ge in Ei, Ej.
    specialize (Hy _ _ _ _ Hp Hq Hlt). lia.
Qed.

Lemma by_priority_firstn n b : by_priority b -> by_priority (firstn n b).
Proof.
  intros H i j p q Hp Hq Hlt.
  rewrite nth_error_firstn in Hp, Hq.
  destruct (Nat.ltb i n); [|discriminate].
  destruct (Nat.ltb j n); [|discriminate].
  eapply H; eauto.
Qed.

Lemma planned_classes l :
  Forall (fun p => priority p = 1%nat) (filter is_charset l) /\
  Forall (fun p => priority p = 2%nat)
         (filter is_immediate (skipped is_charset l)) /\
  Forall (fun p => priority p = 3%nat)
         (skipped is_immediate (skipped is_charset l)).
Proof.
  unfold skipped, priority.
  repeat split; apply Forall_forall; intros p Hp;
    repeat (apply filter_In in Hp; destruct Hp as [Hp ?]).
  - now rewrite H.
  - apply negb_true_iff in H0. now rewrite H0, H.
  - apply negb_true_iff in H, H0. now rewrite H0, H.
Qed.

Lemma planned_by_priority l : by_priority (planned_order l).
Proof.
  destruct (planned_classes l) as (H1 & H2 & H3).
  unfold planned_order.
  assert (H23 : by_priority
                  (filter is_immediate (skipped is_charset l)
                   ++ skipped is_immediate (skipped is_charset l))).
  { apply by_priority_app; eauto using by_priority_const.
    rewrite Forall_forall in H2, H3.
    intros p q Hp Hq. rewrite (H2 _ Hp), (H3 _ Hq). lia. }
  apply by_priority_app; eauto using by_priority_const.
  rewrite Forall_forall in H1, H2, H3.
  intros p q Hp Hq. rewrite (H1 _ Hp).
  apply in_app_or in Hq. destruct Hq as [Hq|Hq].
  - rewrite (H2 _ Hq). lia.
  - rewrite (H3 _ Hq). lia.
Qed.

(** *** The update loop *)

Lemma chunk_large_length all K batch rest :
  ResourceParameterModifyChunk all K = (batch, Some rest) ->
  exhausted_in (elems all) (elems batch) rest ->
  len batch = K ->
  Z.of_nat (List.length rest) = (len all - K)%Z.
Proof.
  intros _ Hex Hb. apply exhausted_perm, Permutation_length in Hex.
  rewrite length_app in Hex. unfold len in *. lia.
Qed.

Lemma batches_count_small n K :
  (1 <= K)%Z -> (0 <= n <= K)%Z -> Z.max 1 ((n + K - 1) / K) = 1%Z.
Proof.
  intros HK Hn.
  assert ((n + K - 1) / K < 2)%Z by (apply Z.div_lt_upper_bound; lia).
  lia.
Qed.

Lemma batches_count_large n K :
  (1 <= K)%Z -> (K < n)%Z ->
  (1 + Z.max 1 ((n - K + K - 1) / K) = Z.max 1 ((n + K - 1) / K))%Z.
Proof.
  intros HK Hn.
  replace (n - K + K - 1)%Z with (n - 1)%Z by lia.
  replace (n + K - 1)%Z with (n - 1 + 1 * K)%Z by lia.
  rewrite Z.div_add by lia.
  assert (1 <= (n - 1) / K)%Z by (apply Z.div_le_lower_bound; lia).
  lia.
Qed.

(** With enough fuel the loop ends, having sent batches of at most [K]
    parameters that together hold the input, [ceil(n / K)] of them for
    [n > 0] parameters. *)
Lemma modifyLoop_spec K :
  (1 <= K)%Z ->
  forall n l fuel,
    (List.length l <= n)%nat -> (n < fuel)%nat ->
    exists batches,
      modifyLoop K fuel (Some l) = Some batches /\
      Permutation (List.concat batches) l /\
      Forall (fun b => (Z.of_nat (List.length b) <= K)%Z) batches /\
      Z.of_nat (List.length batches)
      = Z.max 1 ((Z.of_nat (List.length l) + K - 1) / K).
Proof.
  intros HK. induction n as [|n IH]; intros l fuel Hn Hfuel;
    (destruct fuel as [|fuel]; [lia|]); simpl.
  - rewrite chunk_small by (unfold len; simpl; lia).
    destruct fuel; simpl; exists [l]; simpl; rewrite app_nil_r;
      (repeat split; [reflexivity | constructor; [lia | constructor]
                      | rewrite batches_count_small; lia]).
  - destruct (Z_le_gt_dec (len (Some l)) K) as [Hs|Hl].
    + rewrite chunk_small by exact Hs.
      unfold len in Hs; simpl in Hs.
      destruct fuel; simpl; exists [l]; simpl; rewrite app_nil_r;
        (repeat split; [reflexivity | constructor; [lia | constructor]
                        | rewrite batches_count_small; lia]).
    + destruct (chunk_large (Some l) K) as (batch & rest & E & Hb & Hr & Hex);
        [lia | lia |].
      rewrite E.
      pose proof (chunk_large_length _ _ _ _ E Hex Hb) as Hlen.
      unfold len in Hl, Hlen, Hb; simpl in Hl, Hlen, Hex.
      destruct (IH rest fuel) as (bs & Ebs & Hperm & Hall & Hcount);
        [lia | lia |].
      rewrite Ebs. exists (elems batch :: bs). simpl.
      repeat split.
      * rewrite Hperm. now apply exhausted_perm.
      * constructor; [lia | exact Hall].
      * rewrite Hlen in Hcount.
        rewrite <- batches_count_large by lia. lia.
Qed.

Lemma NoDup_app_disjoint {A} (x y : list A) a :
  NoDup (x ++ y) -> In a x -> In a y -> False.
Proof.
  induction x as [|b x IH]; simpl; intros Hnd Hx Hy.
  - contradiction.
  - inversion Hnd; subst. destruct Hx as [->|Hx].
    + apply H1. apply in_or_app. now right.
    + auto.
Qed.

Lemma concat_NoDup_disjoint {A} (bs : list (list A)) :
  NoDup (List.concat bs) ->
  forall i j bi bj a,
    (i < j)%nat -> nth_error bs i = Some bi -> nth_error bs j = Some bj ->
    In a bi -> In a bj -> False.
Proof.
  induction bs as [|b bs IH]; intros Hnd i j bi bj a Hij Hi Hj Hai Haj.
  - destruct i; discriminate.
  - simpl in Hnd. destruct j as [|j]; [lia|]. simpl in Hj.
    destruct i as [|i]; simpl in Hi.
    + injection Hi as <-.
      apply (NoDup_app_disjoint _ _ a Hnd Hai).
      apply in_concat. exists bj. split; [|exact Haj].
      eapply nth_error_In; eauto.
    + apply NoDup_app_remove_l in Hnd.
      apply (IH Hnd i j bi bj a); auto. lia.
Qed.

(** *** The claims about the planner *)

(** C1 (partition completeness).  For a capacity [K >= 1], one call splits
    its input into a batch and a remainder that together hold exactly the
    input, as multisets.  Driving the planner on the successive remainders
    until the remainder is nil, as the update loop does, ends and yields
    batches whose concatenation is a permutation of the input: nothing is
    lost or duplicated; when the input has no repeated entry, no entry is
    in two batches. *)
Theorem partition_completeness (all : slice rdsParameter) (K : Z) :
  (1 <= K)%Z ->
  Permutation (elems (fst (ResourceParameterModifyChunk all K))
               ++ elems (snd (ResourceParameterModifyChunk all K)))
              (elems all)
  /\
  forall fuel, (List.length (elems all) < fuel)%nat ->
    exists batches,
      modifyLoop K fuel all = Some batches /\
      Permutation (List.concat batches) (elems all) /\
      (NoDup (elems all) ->
       forall i j bi bj a,
         i <> j -> nth_error batches i = Some bi ->
         nth_error batches j = Some bj -> In a bi -> ~ In a bj).
Proof.
  intros HK. split.
  - destruct (Z_le_gt_dec (len all) K) as [Hs|Hl].
    + rewrite chunk_small by exact Hs. simpl. now rewrite app_nil_r.
    + destruct (chunk_large all K) as (batch & rest & E & _ & _ & Hex);
        [lia | lia |].
      rewrite E. simpl. now apply exhausted_perm.
  - intros fuel Hfuel. destruct all as [l|].
    + destruct (@modifyLoop_spec K HK (List.length l) l fuel)
        as (batches & E & Hperm & _ & _); [lia | exact Hfuel |].
      exists batches. repeat split; auto.
      intros Hnd i j bi bj a Hij Hi Hj Hai Haj.
      assert (Hc : NoDup (List.concat batches)).
      { apply Permutation_NoDup with l; [now symmetry | exact Hnd]. }
      destruct (Nat.lt_total i j) as [Hlt|[Heq|Hgt]].
      * exact (concat_NoDup_disjoint _ Hc i j bi bj a Hlt Hi Hj Hai Haj).
      * contradiction.
      * exact (concat_NoDup_disjoint _ Hc j i bj bi a Hgt Hj Hi Haj Hai).
    + exists []. destruct fuel; simpl; repeat split; auto;
        intros _ i j bi bj a _ Hi; destruct i; discriminate.
Qed.

(** C2 (capacity bound).  For a capacity [K >= 1] the batch has at most
    [K] elements, and exactly [K] when the input has at least [K]. *)
Theorem capacity_bound (all : slice rdsParameter) (K : Z) :
  (1 <= K)%Z ->
  (len (fst (ResourceParameterModifyChunk all K)) <= K)%Z /\
  ((K <= len all)%Z -> len (fst (ResourceParameterModifyChunk all K)) = K).
Proof.
  intros HK.
  destruct (Z_le_gt_dec (len all) K) as [Hs|Hl].
  - rewrite chunk_small by exact Hs. simpl. split; [exact Hs | lia].
  - destruct (chunk_large all K) as (batch & rest & E & Hb & _ & _);
      [lia | lia |].
    rewrite E. simpl. split; [lia | auto].
Qed.

(** C3 (trivial case).  For a capacity [K >= 1], an input of at most [K]
    elements comes back whole as the batch, with a nil remainder; on the
    empty input, nil or not, the batch is empty and the remainder nil. *)
Theorem trivial_case (all : slice rdsParameter) (K : Z) :
  (1 <= K)%Z ->
  ((len all <= K)%Z -> ResourceParameterModifyChunk all K = (all, None)) /\
  ResourceParameterModifyChunk None K = (None, None) /\
  ResourceParameterModifyChunk (Some []) K = (Some [], None).
Proof.
  intros HK. repeat split.
  - apply chunk_small.
  - apply chunk_small. unfold len. simpl. lia.
  - apply chunk_small. unfold len. simpl. lia.
Qed.

(** C4, as amended (prioritization).  When the input has more than [K]
    elements ([K >= 1]), the batch is the first [K] elements of the input
    rearranged by class (character-set parameters that are not
    pending-reboot, then the other parameters that are not pending-reboot,
    then the pending-reboot ones, each class in arrival order), so in the
    batch no parameter of a later class comes before one of an earlier
    class. *)
Theorem priority_order (all : slice rdsParameter) (K : Z) :
  (1 <= K)%Z -> (K < len all)%Z ->
  elems (fst (ResourceParameterModifyChunk all K))
  = firstn (Z.to_nat K) (planned_order (elems all)) /\
  by_priority (elems (fst (ResourceParameterModifyChunk all K))).
Proof.
  intros HK Hl.
  destruct (chunk_large all K) as (batch & rest & E & Hb & _ & Hex);
    [lia | lia |].
  rewrite E. simpl.
  assert (Eb : elems batch
               = firstn (Z.to_nat K) (planned_order (elems all))).
  { rewrite (@exhausted_planned _ _ _ Hex) at 1. f_equal.
    unfold len in Hb. lia. }
  split; [exact Eb|].
  rewrite Eb. apply by_priority_firstn, planned_by_priority.
Qed.

(** C5 (capacity exhausted inside a pass).  On more than [K] elements
    ([K >= 1]) the call returns from inside pass 1, 2 or 3 with a batch of
    exactly [K] elements.  The remainder is what that pass had stepped
    over, followed by what it had not scanned yet; it holds exactly the
    elements that are not in the batch, in their arrival order. *)
Theorem exhausted_mid_pass (all : slice rdsParameter) (K : Z) :
  (1 <= K)%Z -> (K < len all)%Z ->
  exists batch rest,
    ResourceParameterModifyChunk all K = (batch, Some rest) /\
    len batch = K /\
    exhausted_in (elems all) (elems batch) rest /\
    in_arrival_order rest (elems all) /\
    Permutation (elems batch ++ rest) (elems all).
Proof.
  intros HK Hl.
  destruct (chunk_large all K) as (batch & rest & E & Hb & _ & Hex);
    [lia | lia |].
  exists batch, rest. repeat split; auto.
  - now apply exhausted_arrival with (elems batch).
  - now apply exhausted_perm.
Qed.

(** C6 (termination).  The planner is a total function.  For [K >= 1], on
    more than [K] elements its remainder is not nil and has [K] elements
    fewer than the input; on at most [K] elements its remainder is nil.
    So the update loop, which stops at a nil remainder, ends whenever it is
    given more iterations than the input has elements, after
    [max 1 (ceil (n / K))] batches for a non-nil input of [n] elements. *)
Theorem planner_terminates (all : slice rdsParameter) (K : Z) :
  (1 <= K)%Z ->
  ((K < len all)%Z ->
   exists batch rest,
     ResourceParameterModifyChunk all K = (batch, Some rest) /\
     Z.of_nat (List.length rest) = (len all - K)%Z /\
     (List.length rest < List.length (elems all))%nat) /\
  ((len all <= K)%Z -> snd (ResourceParameterModifyChunk all K) = None) /\
  forall fuel, (List.length (elems all) < fuel)%nat ->
    exists batches,
      modifyLoop K fuel all = Some batches /\
      match all with
      | None => batches = []
      | Some _ =>
          Z.of_nat (List.length batches)
          = Z.max 1 ((len all + K - 1) / K)
      end.
Proof.
  intros HK. repeat split.
  - intros Hl.
    destruct (chunk_large all K) as (batch & rest & E & Hb & _ & Hex);
      [lia | lia |].
    pose proof (chunk_large_length _ _ _ _ E Hex Hb) as Hlen.
    exists batch, rest. unfold len in *. repeat split; auto. lia.
  - intros Hs. now rewrite chunk_small.
  - intros fuel Hfuel. destruct all as [l|].
    + destruct (@modifyLoop_spec K HK (List.length l) l fuel)
        as (batches & E & _ & _ & Hcount); [lia | exact Hfuel |].
      exists batches. split; auto.
    + exists []. destruct fuel; auto.
Qed.

(** *** The claims at the second scenario of the specification *)

Lemma partition_completeness_witness :
  (1 <= 2)%Z /\
  (Permutation
     (elems (fst (ResourceParameterModifyChunk samples.scenario2 2))
      ++ elems (snd (ResourceParameterModifyChunk samples.scenario2 2)))
     (elems samples.scenario2)
   /\
   forall fuel, (List.length (elems samples.scenario2) < fuel)%nat ->
     exists batches,
       modifyLoop 2 fuel samples.scenario2 = Some batches /\
       Permutation (List.concat batches) (elems samples.scenario2) /\
       (NoDup (elems samples.scenario2) ->
        forall i j bi bj a,
          i <> j -> nth_error batches i = Some bi ->
          nth_error batches j = Some bj -> In a bi -> ~ In a bj)).
Proof.
  split; [lia | apply (partition_completeness samples.scenario2 2); lia].
Defined.

Lemma capacity_bound_witness :
  (1 <= 2)%Z /\
  ((len (fst (ResourceParameterModifyChunk samples.scenario2 2)) <= 2)%Z /\
   ((2 <= len samples.scenario2)%Z ->
    len (fst (ResourceParameterModifyChunk samples.scenario2 2)) = 2%Z)).
Proof.
  split; [lia | apply (capacity_bound samples.scenario2 2); lia].
Defined.

Lemma trivial_case_witness :
  (1 <= 20)%Z /\
  (((len samples.scenario2 <= 20)%Z ->
    ResourceParameterModifyChunk samples.scenario2 20
    = (samples.scenario2, None)) /\
   ResourceParameterModifyChunk None 20 = (None, None) /\
   ResourceParameterModifyChunk (Some []) 20 = (Some [], None)).
Proof.
  split; [lia | apply (trivial_case samples.scenario2 20); lia].
Defined.

Lemma priority_order_witness :
  (1 <= 2)%Z /\ (2 < len samples.scenario2)%Z /\
  (elems (fst (ResourceParameterModifyChunk samples.scenario2 2))
   = firstn (Z.to_nat 2) (planned_order (elems samples.scenario2)) /\
   by_priority (elems (fst (ResourceParameterModifyChunk samples.scenario2 2)))).
Proof.
  split; [lia | split; [reflexivity |]].
  apply (priority_order samples.scenario2 2); [lia | reflexivity].
Defined.

Lemma exhausted_mid_pass_witness :
  (1 <= 2)%Z /\ (2 < len samples.scenario2)%Z /\
  exists batch rest,
    ResourceParameterModifyChunk samples.scenario2 2 = (batch, Some rest) /\
    len batch = 2%Z /\
    exhausted_in (elems samples.scenario2) (elems batch) rest /\
    in_arrival_order rest (elems samples.scenario2) /\
    Permutation (elems batch ++ rest) (elems samples.scenario2).
Proof.
  split; [lia | split; [reflexivity |]].
  apply (exhausted_mid_pass samples.scenario2 2); [lia | reflexivity].
Defined.

Lemma planner_terminates_witness :
  (1 <= 2)%Z /\
  (((2 < len samples.scenario2)%Z ->
    exists batch rest,
      ResourceParameterModifyChunk samples.scenario2 2 = (batch, Some rest) /\
      Z.of_nat (List.length rest) = (len samples.scenario2 - 2)%Z /\
      (List.length rest < List.length (elems samples.scenario2))%nat) /\
   ((len samples.scenario2 <= 2)%Z ->
    snd (ResourceParameterModifyChunk samples.scenario2 2) = None) /\
   forall fuel, (List.length (elems samples.scenario2) < fuel)%nat ->
     exists batches,
       modifyLoop 2 fuel samples.scenario2 = Some batches /\
       match samples.scenario2 with
       | None => batches = []
       | Some _ =>
           Z.of_nat (List.length batches)
           = Z.max 1 ((len samples.scenario2 + 2 - 1) / 2)
       end).
Proof.
  split; [lia | apply (planner_terminates samples.scenario2 2); lia].
Defined.

(** The second scenario itself: with capacity 2 the batch is
    [character_set_client; max_connections] and the remainder
    [character_set_server]. *)
Example scenario2_chunk :
  ResourceParameterModifyChunk samples.scenario2 2
  = (Some [samples.character_set_client; samples.max_connections],
     Some [samples.character_set_server]).
Proof. reflexivity. Qed.

(** C4 as stated fails on an input that fits in one call: the two
    parameters of [reboot_first] come back in arrival order, the
    pending-reboot [character_set_server] (class 3, position 0) before the
    immediate [character_set_client] (class 1, position 1). *)
Lemma priority_order_counterexample :
  (1 <= 20)%Z /\
  ResourceParameterModifyChunk samples.reboot_first 20
  = (Some [samples.character_set_server; samples.character_set_client], None) /\
  priority samples.character_set_client = 1%nat /\
  priority samples.character_set_server = 3%nat /\
  ~ by_priority
      (elems (fst (ResourceParameterModifyChunk samples.reboot_first 20))).
Proof.
  split; [lia|]. repeat split.
  intros H.
  specialize (H 1%nat 0%nat samples.character_set_client
                samples.character_set_server eq_refl eq_refl).
  assert (Hlt : (priority samples.character_set_client
                 < priority samples.character_set_server)%nat)
    by (vm_compute; lia).
  specialize (H Hlt). lia.
Qed.

End planner.

(* ===================================================================== *)
(** ** Properties of the Read, Delete and Create handlers *)
(* ===================================================================== *)

Module handlers.
Import Go tf.

Lemma invoke_calls {W I O} name key (op : I -> W -> O * W) input st :
  calls (snd (invoke name key op input st)) = calls st ++ [mkCall name key].
Proof.
  unfold invoke. destruct (op input (world st)); reflexivity.
Qed.

(** *** Read *)

Lemma rds_read_not_found {W} (conn : rds.RDSConn W) tail d st :
  rds.lookup_not_found conn d st = true ->
  fst (rds.resourceParameterGroupRead conn tail d st)
  = Done (rds.SetId d "", []).
Proof.
  unfold rds.lookup_not_found, rds.resourceParameterGroupRead, invoke.
  destruct (rds.DescribeDBParameterGroupsWithContext conn _ (world st))
    as [[resp err] w'].
  simpl. intros H. destruct err as [e|]; [|discriminate].
  simpl in *. now rewrite H.
Qed.

Lemma ipam_read_not_found {W} (meta : vpc_ipam.AWSClient W) d st :
  vpc_ipam.lookup_not_found (vpc_ipam.ec2conn meta) d st = true ->
  vpc_ipam.IsNewResource d = false ->
  fst (vpc_ipam.resourceAwsVpcIpamRead meta d st)
  = Done (vpc_ipam.SetId d "", None).
Proof.
  unfold vpc_ipam.lookup_not_found, vpc_ipam.resourceAwsVpcIpamRead.
  destruct (vpc_ipam.findIpamById (vpc_ipam.ec2conn meta) (vpc_ipam.Id d) st)
    as [[ipam err] st'].
  intros H Hnew. apply andb_true_iff in H. destruct H as [Hnil Herr].
  destruct ipam; [discriminate|]. rewrite Hnew.
  destruct err as [e|]; simpl in *; [|reflexivity].
  now rewrite Herr.
Qed.

(** C7, as amended (not-found on read).  When the remote lookup reports
    not-found, the RDS parameter group Read clears the identifier and
    returns no diagnostic, whether or not the resource is new (it never
    looks at the new-resource flag); the IPAM Read clears the identifier
    and returns a nil error when the resource is not new. *)
Theorem read_not_found_clears_identity {W}
        (rconn : rds.RDSConn W)
        (tail : rds.DBParameterGroup -> rds.ResourceData -> remote W ->
                result (rds.ResourceData * Diagnostics) * remote W)
        (rd : rds.ResourceData) (rst : remote W)
        (meta : vpc_ipam.AWSClient W) (d : vpc_ipam.ResourceData)
        (st : remote W) :
  rds.lookup_not_found rconn rd rst = true ->
  vpc_ipam.lookup_not_found (vpc_ipam.ec2conn meta) d st = true ->
  vpc_ipam.IsNewResource d = false ->
  fst (rds.resourceParameterGroupRead rconn tail rd rst)
  = Done (rds.SetId rd "", [])
  /\
  fst (vpc_ipam.resourceAwsVpcIpamRead meta d st)
  = Done (vpc_ipam.SetId d "", None).
Proof.
  intros Hr Hi Hnew. split.
  - now apply rds_read_not_found.
  - now apply ipam_read_not_found.
Qed.

Lemma read_not_found_clears_identity_witness :
  rds.lookup_not_found samples.rds_conn samples.new_group (samples.start [])
  = true /\
  vpc_ipam.lookup_not_found (vpc_ipam.ec2conn samples.client)
                            samples.old_ipam (samples.start []) = true /\
  vpc_ipam.IsNewResource samples.old_ipam = false /\
  (fst (rds.resourceParameterGroupRead
          samples.rds_conn samples.read_nothing_more samples.new_group
          (samples.start []))
   = Done (rds.SetId samples.new_group "", [])
   /\
   fst (vpc_ipam.resourceAwsVpcIpamRead samples.client samples.old_ipam
                                        (samples.start []))
   = Done (vpc_ipam.SetId samples.old_ipam "", None)).
Proof.
  repeat (split; [reflexivity|]).
  apply (read_not_found_clears_identity
           samples.rds_conn samples.read_nothing_more samples.new_group
           (samples.start []) samples.client samples.old_ipam
           (samples.start [])); reflexivity.
Defined.

(** C7 as stated fails for a newly created parameter group: the lookup
    reports not-found, and Read clears the identifier and returns no
    diagnostic instead of an error. *)
Lemma read_not_found_counterexample :
  rds.IsNewResource samples.new_group = true /\
  rds.lookup_not_found samples.rds_conn samples.new_group (samples.start [])
  = true /\
  fst (rds.resourceParameterGroupRead
         samples.rds_conn samples.read_nothing_more samples.new_group
         (samples.start []))
  = Done (rds.SetId samples.new_group "", []).
Proof.
  repeat split.
Qed.

(** The IPAM Read of a newly created resource that is not found goes past
    the not-found test and dereferences the nil result. *)
Example ipam_read_new_not_found :
  vpc_ipam.IsNewResource samples.ipam_here = true /\
  fst (vpc_ipam.resourceAwsVpcIpamRead samples.client samples.ipam_here
                                       (samples.start []))
  = Panic "nil pointer dereference".
Proof.
  split; reflexivity.
Qed.

(** *** Delete *)

Lemma deleteAttempt_calls {W} (conn : rds.RDSConn W) opts id st :
  calls (snd (rds.deleteAttempt conn opts id st))
  = calls st ++ [mkCall "DeleteDBParameterGroup" id].
Proof.
  unfold rds.deleteAttempt, invoke.
  destruct (rds.DeleteDBParameterGroup conn opts (world st)) as [err w'].
  destruct (IsA "DBParameterGroupNotFoundFault" err); [reflexivity|].
  destruct (IsA "InvalidDBParameterGroupStateFault" err); [reflexivity|].
  destruct err; reflexivity.
Qed.

(** A retry loop of [n] attempts sends at most [n] requests. *)
Lemma retry_loop_calls {W} (f : remote W -> option RetryError * remote W) :
  (forall st, List.length (calls (snd (f st)))
              = S (List.length (calls st))) ->
  forall n r st,
    (List.length (calls (snd (retry_loop n f r st)))
     <= List.length (calls st) + n)%nat.
Proof.
  intros Hf. induction n as [|n IH]; intros r st; simpl.
  - destruct r; simpl; lia.
  - specialize (Hf st). destruct (f st) as [[[e|e]|] st']; simpl in *.
    + specialize (IH e st'). lia.
    + lia.
    + lia.
Qed.

Lemma rds_delete_bounded {W} (conn : rds.RDSConn W) n d st :
  (List.length (calls (snd (rds.resourceParameterGroupDelete conn n d st)))
   <= List.length (calls st) + n + 1)%nat.
Proof.
  unfold rds.resourceParameterGroupDelete, RetryContext.
  pose proof (retry_loop_calls
                (rds.deleteAttempt conn (rds.mkDeleteInput (Some (rds.Id d)))
                                   (rds.Id d))) as Hb.
  specialize (Hb (fun st => ltac:(rewrite deleteAttempt_calls, length_app;
                                  simpl; lia)) n None st).
  destruct (retry_loop n _ None st) as [err st1]. simpl in Hb.
  destruct (TimedOut err).
  - pose proof (invoke_calls "DeleteDBParameterGroup" (rds.Id d)
                             (rds.DeleteDBParameterGroup conn)
                             (rds.mkDeleteInput (Some (rds.Id d))) st1) as Hc.
    destruct (invoke _ _ _ _ st1) as [err' st2]. simpl in Hc.
    assert (List.length (calls st2) = S (List.length (calls st1)))
      by (rewrite Hc, length_app; simpl; lia).
    destruct err'; simpl; lia.
  - destruct err; simpl; lia.
Qed.

(** C8, as amended (errors on delete).  RDS parameter group Delete, on the
    answer to a request sent within the retry window: a not-found fault is
    success; an invalid-state fault makes it try again, as long as
    attempts are left; any other error of the service is returned at once
    (the SDK's own timeout error, which the service never sends, would be
    taken for the end of the window); and a Delete
    with [n] attempts sends at most [n + 1] requests.  IPAM Delete neither
    retries nor tolerates not-found on its request: every error of the
    delete request is returned at once, wrapped; a not-found error met
    while waiting for the deletion is success. *)
Theorem delete_error_handling {W}
        (conn : rds.RDSConn W) (d : rds.ResourceData) (st : remote W)
        (n : nat)
        (WaitForState : waiter W) (meta : vpc_ipam.AWSClient W)
        (di : vpc_ipam.ResourceData) (sti : remote W) :
  (IsA "DBParameterGroupNotFoundFault" (rds.first_delete_error conn d st)
   = true ->
   rds.resourceParameterGroupDelete conn (S n) d st
   = ([], rds.after_delete_request conn d st))
  /\
  (IsA "DBParameterGroupNotFoundFault" (rds.first_delete_error conn d st)
   = false ->
   IsA "InvalidDBParameterGroupStateFault" (rds.first_delete_error conn d st)
   = true ->
   rds.resourceParameterGroupDelete conn (S (S n)) d st
   = rds.resourceParameterGroupDelete conn (S n) d
                                      (rds.after_delete_request conn d st))
  /\
  (forall e,
      rds.first_delete_error conn d st = Some e ->
      isA "DBParameterGroupNotFoundFault" e = false ->
      isA "InvalidDBParameterGroupStateFault" e = false ->
      TimedOut (Some e) = false ->
      rds.resourceParameterGroupDelete conn (S n) d st
      = (AppendErrorf [] "deleting RDS DB Parameter Group" (Some e),
         rds.after_delete_request conn d st))
  /\
  (List.length (calls (snd (rds.resourceParameterGroupDelete conn n d st)))
   <= List.length (calls st) + n + 1)%nat
  /\
  (forall e,
      vpc_ipam.delete_request_error (vpc_ipam.ec2conn meta) di sti = Some e ->
      vpc_ipam.resourceAwsVpcIpamDelete WaitForState meta di sti
      = (Some (Wrapped "error deleting IPAM" e),
         vpc_ipam.after_delete_request (vpc_ipam.ec2conn meta) di sti))
  /\
  (forall r e st',
      vpc_ipam.delete_request_error (vpc_ipam.ec2conn meta) di sti = None ->
      vpc_ipam.waiterIpamDeleted
        WaitForState (vpc_ipam.ec2conn meta) (vpc_ipam.Id di)
        vpc_ipam.IpamDeleteTimeout
        (vpc_ipam.after_delete_request (vpc_ipam.ec2conn meta) di sti)
      = ((r, Some e), st') ->
      errCodeEquals e vpc_ipam.InvalidIpamIdNotFound = true ->
      vpc_ipam.resourceAwsVpcIpamDelete WaitForState meta di sti
      = (None, st')).
Proof.
  repeat split.
  - unfold rds.first_delete_error, rds.after_delete_request,
      rds.resourceParameterGroupDelete, RetryContext, rds.deleteAttempt,
      invoke.
    simpl.
    destruct (rds.DeleteDBParameterGroup conn _ (world st)) as [err w'].
    simpl. intros H. now rewrite H.
  - unfold rds.first_delete_error, rds.after_delete_request,
      rds.resourceParameterGroupDelete, RetryContext, invoke.
    cbn [retry_loop]. unfold rds.deleteAttempt at 1 3. unfold invoke.
    destruct (rds.DeleteDBParameterGroup conn _ (world st)) as [err w'].
    cbn [fst snd]. intros H1 H2. rewrite H1, H2. reflexivity.
  - intros e He H1 H2 H3.
    unfold rds.first_delete_error in He.
    unfold rds.after_delete_request, rds.resourceParameterGroupDelete,
      RetryContext, rds.deleteAttempt, invoke.
    cbn [retry_loop].
    destruct (rds.DeleteDBParameterGroup conn _ (world st)) as [err w'].
    cbn [fst snd] in *. subst err. cbn [IsA].
    rewrite H1, H2, H3. reflexivity.
  - apply rds_delete_bounded.
  - unfold vpc_ipam.delete_request_error, vpc_ipam.after_delete_request,
      vpc_ipam.resourceAwsVpcIpamDelete, invoke.
    destruct (ec2.DeleteIpam (vpc_ipam.ec2conn meta) _ (world sti))
      as [err w'].
    simpl. now intros e ->.
  - unfold vpc_ipam.delete_request_error, vpc_ipam.after_delete_request,
      vpc_ipam.resourceAwsVpcIpamDelete, invoke.
    destruct (ec2.DeleteIpam (vpc_ipam.ec2conn meta) _ (world sti))
      as [err w'].
    simpl. intros r e st' -> Hw He. rewrite Hw. simpl. now rewrite He.
Qed.

Lemma delete_error_handling_witness :
  IsA "DBParameterGroupNotFoundFault"
      (rds.first_delete_error samples.rds_conn samples.old_group
                              (samples.start [Some samples.group_gone]))
  = true /\
  rds.resourceParameterGroupDelete samples.rds_conn 1 samples.old_group
                                   (samples.start [Some samples.group_gone])
  = ([], rds.after_delete_request samples.rds_conn samples.old_group
                                  (samples.start [Some samples.group_gone])).
Proof.
  split; [reflexivity|].
  apply (proj1 (delete_error_handling
                  samples.rds_conn samples.old_group
                  (samples.start [Some samples.group_gone]) 0
                  samples.poll_once samples.client samples.old_ipam
                  (samples.start [Some samples.ipam_gone]))).
  reflexivity.
Defined.

(** A parameter group in use on the first request and gone on the second
    is deleted with two requests. *)
Example rds_delete_retried :
  rds.resourceParameterGroupDelete
    samples.rds_conn 3 samples.old_group
    (samples.start [Some samples.group_in_use; Some samples.group_gone])
  = ([], mkRemote [] [mkCall "DeleteDBParameterGroup" "pg-1";
                      mkCall "DeleteDBParameterGroup" "pg-1"]).
Proof. reflexivity. Qed.

(** C8 as stated fails for the IPAM Delete: a not-found answer to its
    delete request comes back as an error, and an error that a second
    request would not meet is not retried (one request is sent). *)
Lemma delete_error_handling_counterexample :
  errCodeEquals samples.ipam_gone vpc_ipam.InvalidIpamIdNotFound = true /\
  vpc_ipam.resourceAwsVpcIpamDelete
    samples.poll_once samples.client samples.old_ipam
    (samples.start [Some samples.ipam_gone])
  = (Some (Wrapped "error deleting IPAM" samples.ipam_gone),
     mkRemote [] [mkCall "DeleteIpam" "ipam-1"]) /\
  vpc_ipam.resourceAwsVpcIpamDelete
    samples.poll_once samples.client samples.old_ipam
    (samples.start [Some samples.ipam_busy; None])
  = (Some (Wrapped "error deleting IPAM" samples.ipam_busy),
     mkRemote [None] [mkCall "DeleteIpam" "ipam-1"]).
Proof.
  repeat split.
Qed.

(** *** Read of an IPAM scope *)

(** C9 (the code does not do this).  When the lookup of the IPAM scope
    Read finds no scope, the handler dereferences the nil result, in
    [*scope.IpamArn], before it reaches its not-found test: it panics
    instead of clearing the identifier. *)
Theorem scope_read_dereferences_nil {W} (conn : ec2.EC2 W)
        (d : vpc_ipam_scope.ResourceData) (st : remote W) :
  vpc_ipam_scope.lookup_not_found conn d st = true ->
  fst (vpc_ipam_scope.resourceAwsVpcIpamScopeRead conn d st)
  = Panic "nil pointer dereference".
Proof.
  unfold vpc_ipam_scope.lookup_not_found,
    vpc_ipam_scope.resourceAwsVpcIpamScopeRead.
  destruct (vpc_ipam_scope.findIpamScopeById conn (vpc_ipam_scope.Id d) st)
    as [[scope err] st'].
  simpl. destruct scope; [discriminate | reflexivity].
Qed.

Lemma scope_read_dereferences_nil_witness :
  vpc_ipam_scope.lookup_not_found samples.ec2_conn samples.old_scope
                                  (samples.start []) = true /\
  fst (vpc_ipam_scope.resourceAwsVpcIpamScopeRead
         samples.ec2_conn samples.old_scope (samples.start []))
  = Panic "nil pointer dereference".
Proof.
  split; [reflexivity|].
  apply (scope_read_dereferences_nil samples.ec2_conn samples.old_scope
                                     (samples.start [])).
  reflexivity.
Defined.

(** *** Create of an IPAM *)

Lemma default_region_In regions current_region :
  vpc_ipam.expandAwsIpamOperatingRegionsDefaultRegion regions current_region
  = true
  <-> In current_region (map vpc_ipam.region_name regions).
Proof.
  induction regions as [|r rs IH]; simpl.
  - split; [discriminate | contradiction].
  - destruct (String.eqb (vpc_ipam.region_name r) current_region) eqn:E.
    + apply String.eqb_eq in E. tauto.
    + apply String.eqb_neq in E. rewrite IH. tauto.
Qed.

Lemma findIpamById_calls {W} (conn : ec2.EC2 W) id st :
  calls (snd (vpc_ipam.findIpamById conn id st))
  = calls st ++ [mkCall "DescribeIpams" id].
Proof.
  unfold vpc_ipam.findIpamById, invoke.
  destruct (ec2.DescribeIpams conn _ (world st)) as [[out err] w'].
  destruct err; [reflexivity|].
  destruct out as [out|]; [|reflexivity].
  destruct (ec2.Ipams out) as [|[i|] rest]; reflexivity.
Qed.

Lemma ipam_read_calls {W} (meta : vpc_ipam.AWSClient W) d st :
  calls (snd (vpc_ipam.resourceAwsVpcIpamRead meta d st))
  = calls st ++ [mkCall "DescribeIpams" (vpc_ipam.Id d)].
Proof.
  unfold vpc_ipam.resourceAwsVpcIpamRead.
  pose proof (findIpamById_calls (vpc_ipam.ec2conn meta) (vpc_ipam.Id d) st)
    as Hc.
  destruct (vpc_ipam.findIpamById (vpc_ipam.ec2conn meta) (vpc_ipam.Id d) st)
    as [[ipam err] st'].
  simpl in Hc.
  destruct (negb (is_nil err)
            && negb (ErrCodeEquals err vpc_ipam.InvalidIpamIdNotFound));
    [exact Hc|].
  destruct (negb (vpc_ipam.IsNewResource d) && is_nil ipam); [exact Hc|].
  destruct ipam as [i|]; [|exact Hc].
  destruct (vpc_ipam.flattenAwsIpamOperatingRegions (ec2.OperatingRegions i));
    exact Hc.
Qed.

(** C10 (the current region must be an operating region).  When the
    configured [operating_regions] do not hold the provider's region,
    Create returns an error and leaves the remote side as it was: no
    request is sent.  When they hold it, Create sends the create request
    next. *)
Theorem create_checks_current_region {W} (meta : vpc_ipam.AWSClient W)
        (uniqueId : string) (d : vpc_ipam.ResourceData) (st : remote W) :
  (~ In (vpc_ipam.region meta)
        (map vpc_ipam.region_name (vpc_ipam.operating_regions d)) ->
   exists msg,
     vpc_ipam.resourceAwsVpcIpamCreate meta uniqueId d st
     = (Done (d, Some (ErrorString msg)), st))
  /\
  (In (vpc_ipam.region meta)
      (map vpc_ipam.region_name (vpc_ipam.operating_regions d)) ->
   exists rest,
     calls (snd (vpc_ipam.resourceAwsVpcIpamCreate meta uniqueId d st))
     = calls st ++ mkCall "CreateIpam" uniqueId :: rest).
Proof.
  split; intros H.
  - unfold vpc_ipam.resourceAwsVpcIpamCreate.
    destruct (vpc_ipam.expandAwsIpamOperatingRegionsDefaultRegion
                (vpc_ipam.operating_regions d) (vpc_ipam.region meta)) eqn:E.
    + apply default_region_In in E. contradiction.
    + simpl. eauto.
  - apply default_region_In in H.
    unfold vpc_ipam.resourceAwsVpcIpamCreate. rewrite H. cbn [negb].
    unfold invoke.
    destruct (ec2.CreateIpam (vpc_ipam.ec2conn meta) _ (world st))
      as [[out err] w'].
    destruct err as [e|]; [exists []; reflexivity|].
    destruct out as [out|]; [|exists []; reflexivity].
    destruct (ec2.created_Ipam out) as [i|]; [|exists []; reflexivity].
    rewrite ipam_read_calls. simpl. rewrite <- app_assoc. simpl. eauto.
Qed.

Lemma create_checks_current_region_witness :
  ~ In (vpc_ipam.region samples.client)
       (map vpc_ipam.region_name
            (vpc_ipam.operating_regions samples.ipam_elsewhere)) /\
  exists msg,
    vpc_ipam.resourceAwsVpcIpamCreate samples.client "token"
                                      samples.ipam_elsewhere (samples.start [])
    = (Done (samples.ipam_elsewhere, Some (ErrorString msg)),
       samples.start []).
Proof.
  assert (H : ~ In (vpc_ipam.region samples.client)
                   (map vpc_ipam.region_name
                        (vpc_ipam.operating_regions samples.ipam_elsewhere))).
  { simpl. intros [E|[]]. discriminate E. }
  split; [exact H|].
  exact (proj1 (create_checks_current_region
                  samples.client "token" samples.ipam_elsewhere
                  (samples.start [])) H).
Defined.

(** With the provider's region among the operating regions the create
    request is sent. *)
Example create_sends_request :
  calls (snd (vpc_ipam.resourceAwsVpcIpamCreate
                samples.client "token" samples.ipam_here (samples.start [])))
  = [mkCall "CreateIpam" "token"; mkCall "DescribeIpams" "ipam-1"].
Proof. reflexivity. Qed.

End handlers.

(* ===================================================================== *)
(** ** Further properties of the batch planner *)
(* ===================================================================== *)

Module planner_more.
Import Go tf rds.

Lemma filter_none sel (l : list rdsParameter) :
  Forall (fun p => sel p = false) l ->
  filter sel l = [] /\ skipped sel l = l.
Proof.
  unfold skipped. induction 1 as [|p l Hp _ [IH1 IH2]]; simpl.
  - auto.
  - rewrite Hp. simpl. split; congruence.
Qed.

Lemma filter_every sel (l : list rdsParameter) :
  Forall (fun p => sel p = true) l ->
  filter sel l = l /\ skipped sel l = [].
Proof.
  unfold skipped. induction 1 as [|p l Hp _ [IH1 IH2]]; simpl.
  - auto.
  - rewrite Hp. simpl. split; congruence.
Qed.

Lemma Forall_skipped sel (l : list rdsParameter) :
  Forall (fun p => sel p = false) (skipped sel l).
Proof.
  unfold skipped. apply Forall_forall. intros p Hp.
  apply filter_In in Hp. now apply negb_true_iff.
Qed.

Lemma Forall_skipped_keeps (P : rdsParameter -> Prop) sel l :
  Forall P l -> Forall P (skipped sel l).
Proof.
  unfold skipped. rewrite !Forall_forall. intros H p Hp.
  apply filter_In in Hp. apply H. tauto.
Qed.

Lemma skipped_app sel (x y : list rdsParameter) :
  skipped sel (x ++ y) = skipped sel x ++ skipped sel y.
Proof.
  unfold skipped. apply filter_app.
Qed.

Lemma skipn_length_app {A} (b x : list A) :
  skipn (List.length b) (b ++ x) = x.
Proof.
  induction b; simpl; auto.
Qed.

(** The planned order of the remainder is the planned order of the input
    without the batch in front. *)
Lemma exhausted_planned_rest l batch rest :
  exhausted_in l batch rest ->
  planned_order rest = skipn (List.length batch) (planned_order l).
Proof.
  unfold planned_order.
  intros [pre tail El Eb Er | pre tail El Eb Er | pre tail El Eb Er].
  - subst l rest batch.
    destruct (filter_none _ _ (Forall_skipped is_charset pre)) as [F1 F2].
    rewrite !skipped_app, !filter_app, F1, F2. simpl.
    rewrite <- !app_assoc. now rewrite skipn_length_app.
  - pose proof (Forall_skipped is_charset l) as Hall.
    rewrite El in Hall. apply Forall_app in Hall. destruct Hall as [Hpre Htail].
    assert (Hrest : Forall (fun p => is_charset p = false) rest).
    { subst rest. apply Forall_app. split; [|exact Htail].
      now apply Forall_skipped_keeps. }
    destruct (filter_none _ _ Hrest) as [F1 F2]. rewrite F1, F2. simpl.
    destruct (filter_none _ _ (Forall_skipped is_immediate pre)) as [G1 G2].
    rewrite El. subst rest batch.
    rewrite !skipped_app, !filter_app, G1, G2. simpl.
    rewrite <- !app_assoc.
    rewrite (app_assoc (filter is_charset l)).
    now rewrite skipn_length_app.
  - pose proof (Forall_skipped is_immediate (skipped is_charset l)) as Himm.
    assert (Hch : Forall (fun p => is_charset p = false)
                         (skipped is_immediate (skipped is_charset l))).
    { apply Forall_skipped_keeps, Forall_skipped. }
    rewrite El in Himm, Hch.
    apply Forall_app in Himm, Hch.
    destruct Himm as [_ Himm]. destruct Hch as [_ Hch]. subst rest.
    destruct (filter_none _ _ Hch) as [F1 F2]. rewrite F1, F2. simpl.
    destruct (filter_none _ _ Himm) as [G1 G2]. rewrite G1, G2. simpl.
    rewrite El.
    replace (filter is_charset l
             ++ filter is_immediate (skipped is_charset l) ++ pre ++ tail)
      with (batch ++ tail) by (rewrite Eb, <- !app_assoc; reflexivity).
    now rewrite skipn_length_app.
Qed.

Lemma planned_order_perm l : Permutation (planned_order l) l.
Proof.
  unfold planned_order.
  transitivity (filter is_charset l ++ skipped is_charset l).
  - apply Permutation_app_head, planner.filter_skipped_perm.
  - apply planner.filter_skipped_perm.
Qed.

Lemma firstn_plus {A} (a b : nat) (l : list A) :
  firstn (a + b) l = firstn a l ++ firstn b (skipn a l).
Proof.
  revert l. induction a as [|a IH]; intros l; simpl.
  - reflexivity.
  - destruct l; simpl.
    + now rewrite firstn_nil.
    + now rewrite IH.
Qed.

(** The batches of the whole loop, all but the last, follow the planned
    order of the input. *)
Lemma modifyLoop_order K :
  (1 <= K)%Z ->
  forall n l fuel,
    (List.length l <= n)%nat -> (n < fuel)%nat ->
    exists init last,
      modifyLoop K fuel (Some l) = Some (init ++ [last]) /\
      Forall (fun b => Z.of_nat (List.length b) = K) init /\
      List.concat init
      = firstn (List.length (List.concat init)) (planned_order l) /\
      Permutation last
                  (skipn (List.length (List.concat init)) (planned_order l)) /\
      in_arrival_order last l /\
      (Z.of_nat (List.length last) <= K)%Z.
Proof.
  intros HK. induction n as [|n IH]; intros l fuel Hn Hfuel;
    (destruct fuel as [|fuel]; [lia|]); simpl.
  - rewrite planner.chunk_small by (unfold len; simpl; lia).
    exists [], l. simpl.
    destruct fuel; simpl;
      (repeat split; [constructor | symmetry; apply planned_order_perm
                      | apply planner.arrival_refl | lia]).
  - destruct (Z_le_gt_dec (len (Some l)) K) as [Hs|Hl].
    + rewrite planner.chunk_small by exact Hs.
      unfold len in Hs; simpl in Hs.
      exists [], l. simpl.
      destruct fuel; simpl;
        (repeat split; [constructor | symmetry; apply planned_order_perm
                        | apply planner.arrival_refl | lia]).
    + destruct (planner.chunk_large (Some l) K)
        as (batch & rest & E & Hb & Hr & Hex); [lia | lia |].
      rewrite E.
      pose proof (planner.chunk_large_length _ _ _ _ E Hex Hb) as Hlen.
      pose proof (planner.exhausted_planned _ _ _ Hex) as Hbatch.
      pose proof (exhausted_planned_rest _ _ _ Hex) as Hrest.
      pose proof (planner.exhausted_arrival _ _ _ Hex) as Harr.
      unfold len in Hl, Hlen, Hb; simpl in Hl, Hlen, Hex, Hbatch, Hrest, Harr.
      destruct (IH rest fuel)
        as (init & last & Ebs & Hfull & Hinit & Hlast & Hord & Hsmall);
        [lia | lia |].
      rewrite Ebs. exists (elems batch :: init), last. simpl.
      rewrite length_app.
      repeat split.
      * constructor; [exact Hb | exact Hfull].
      * rewrite firstn_plus, <- Hbatch, <- Hrest, <- Hinit. reflexivity.
      * rewrite Nat.add_comm, <- skipn_skipn, <- Hrest. exact Hlast.
      * eapply planner.arrival_trans; eauto.
      * exact Hsmall.
Qed.

(** X1 (priority across batches).  For a capacity [K >= 1] the batches
    that the update loop sends, all but the last, have exactly [K]
    parameters and, put end to end, are an initial segment of the planned
    order of the whole input: a parameter of an earlier class is never
    sent in a later batch than one of a later class, the last batch
    apart.  The last batch holds what is left of the planned order, in
    arrival order. *)
Theorem batches_follow_planned_order (l : list rdsParameter) (K : Z)
        (fuel : nat) :
  (1 <= K)%Z -> (List.length l < fuel)%nat ->
  exists init last,
    modifyLoop K fuel (Some l) = Some (init ++ [last]) /\
    Forall (fun b => Z.of_nat (List.length b) = K) init /\
    List.concat init
    = firstn (List.length (List.concat init)) (planned_order l) /\
    Permutation last
                (skipn (List.length (List.concat init)) (planned_order l)) /\
    in_arrival_order last l /\
    (Z.of_nat (List.length last) <= K)%Z.
Proof.
  intros HK Hfuel.
  apply (@modifyLoop_order K HK (List.length l) l fuel); [lia | exact Hfuel].
Qed.

Lemma batches_follow_planned_order_witness :
  (1 <= 1)%Z /\ (List.length (elems samples.scenario2) < 4)%nat /\
  exists init last,
    modifyLoop 1 4 (Some (elems samples.scenario2)) = Some (init ++ [last]) /\
    Forall (fun b => Z.of_nat (List.length b) = 1%Z) init /\
    List.concat init
    = firstn (List.length (List.concat init))
             (planned_order (elems samples.scenario2)) /\
    Permutation last
                (skipn (List.length (List.concat init))
                       (planned_order (elems samples.scenario2))) /\
    in_arrival_order last (elems samples.scenario2) /\
    (Z.of_nat (List.length last) <= 1)%Z.
Proof.
  split; [lia | split; [simpl; lia |]].
  apply (batches_follow_planned_order (elems samples.scenario2) 1 4);
    [lia | simpl; lia].
Defined.

Lemma planned_order_one_class c (l : list rdsParameter) :
  (forall p, In p l -> priority p = c) -> planned_order l = l.
Proof.
  intros H. unfold planned_order.
  destruct l as [|p0 l']; [reflexivity|].
  assert (Hc : priority p0 = c) by (apply H; now left).
  unfold priority in Hc.
  destruct (is_charset p0) eqn:E1; [|destruct (is_immediate p0) eqn:E2].
  - assert (F : Forall (fun p => is_charset p = true) (p0 :: l')).
    { apply Forall_forall. intros p Hp. specialize (H p Hp).
      unfold priority in H. rewrite <- Hc in H.
      destruct (is_charset p); [reflexivity|].
      destruct (is_immediate p); discriminate. }
    destruct (filter_every _ _ F) as [F1 F2]. rewrite F1, F2. simpl.
    now rewrite app_nil_r.
  - assert (F : Forall (fun p => is_charset p = false) (p0 :: l')).
    { apply Forall_forall. intros p Hp. specialize (H p Hp).
      unfold priority in H. rewrite <- Hc in H.
      destruct (is_charset p); [discriminate | reflexivity]. }
    assert (G : Forall (fun p => is_immediate p = true) (p0 :: l')).
    { apply Forall_forall. intros p Hp. specialize (H p Hp).
      unfold priority in H. rewrite <- Hc in H.
      destruct (is_charset p); [discriminate|].
      destruct (is_immediate p); [reflexivity | discriminate]. }
    destruct (filter_none _ _ F) as [F1 F2]. rewrite F1, F2.
    destruct (filter_every _ _ G) as [G1 G2]. rewrite G1, G2. simpl.
    now rewrite app_nil_r.
  - assert (F : Forall (fun p => is_charset p = false) (p0 :: l')).
    { apply Forall_forall. intros p Hp. specialize (H p Hp).
      unfold priority in H. rewrite <- Hc in H.
      destruct (is_charset p); [discriminate | reflexivity]. }
    assert (G : Forall (fun p => is_immediate p = false) (p0 :: l')).
    { apply Forall_forall. intros p Hp. specialize (H p Hp).
      unfold priority in H. rewrite <- Hc in H.
      destruct (is_charset p); [discriminate|].
      destruct (is_immediate p); [discriminate | reflexivity]. }
    destruct (filter_none _ _ F) as [F1 F2]. rewrite F1, F2.
    destruct (filter_none _ _ G) as [G1 G2]. rewrite G1, G2. reflexivity.
Qed.

(** X2 (nothing to prioritize).  When all the parameters are of one class
    and there are more than [K >= 1] of them, the planner cuts the input
    where it stands: the batch is its first [K] elements and the remainder
    the others, both in arrival order. *)
Theorem one_class_plain_chunk (l : list rdsParameter) (K : Z) (c : nat) :
  (1 <= K)%Z -> (K < len (Some l))%Z ->
  (forall p, In p l -> priority p = c) ->
  ResourceParameterModifyChunk (Some l) K
  = (Some (firstn (Z.to_nat K) l), Some (skipn (Z.to_nat K) l)).
Proof.
  intros HK Hl Hc.
  destruct (planner.chunk_large (Some l) K)
    as (batch & rest & E & Hb & _ & Hex); [lia | lia |].
  rewrite E. simpl in Hex.
  pose proof (planner.exhausted_planned _ _ _ Hex) as Hbatch.
  pose proof (exhausted_planned_rest _ _ _ Hex) as Hrest.
  rewrite (planned_order_one_class c l Hc) in Hbatch, Hrest.
  assert (Hin : forall p, In p rest -> priority p = c).
  { intros p Hp. apply Hc.
    apply (Permutation_in p (planner.exhausted_perm _ _ _ Hex)).
    apply in_or_app. now right. }
  rewrite (planned_order_one_class c rest Hin) in Hrest.
  unfold len in Hb.
  assert (Hn : List.length (elems batch) = Z.to_nat K) by lia.
  rewrite Hn in Hbatch, Hrest.
  destruct batch as [b|]; [|simpl in Hb; lia].
  simpl in Hbatch. now rewrite Hbatch, Hrest.
Qed.

Lemma one_class_plain_chunk_witness :
  (1 <= 1)%Z /\
  (1 < len (Some [samples.character_set_client; samples.character_set_client]))%Z /\
  (forall p, In p [samples.character_set_client; samples.character_set_client]
             -> priority p = 1%nat) /\
  ResourceParameterModifyChunk
    (Some [samples.character_set_client; samples.character_set_client]) 1
  = (Some (firstn (Z.to_nat 1)
                  [samples.character_set_client; samples.character_set_client]),
     Some (skipn (Z.to_nat 1)
                 [samples.character_set_client; samples.character_set_client])).
Proof.
  assert (H : forall p,
             In p [samples.character_set_client; samples.character_set_client]
             -> priority p = 1%nat).
  { intros p [<-|[<-|[]]]; reflexivity. }
  split; [lia | split; [reflexivity | split; [exact H|]]].
  apply (one_class_plain_chunk
           [samples.character_set_client; samples.character_set_client] 1 1);
    [lia | reflexivity | exact H].
Defined.

(** X3 (no capacity).  With a capacity of zero or less and a non-empty
    input, the planner returns a nil batch and the whole input as
    remainder, so the update loop makes no progress: it does not end,
    whatever the number of iterations it is given. *)
Theorem no_capacity_no_progress (p : rdsParameter) (t : list rdsParameter)
        (K : Z) :
  (K <= 0)%Z ->
  ResourceParameterModifyChunk (Some (p :: t)) K = (None, Some (p :: t)) /\
  forall fuel, modifyLoop K fuel (Some (p :: t)) = None.
Proof.
  intros HK.
  assert (E : ResourceParameterModifyChunk (Some (p :: t)) K
              = (None, Some (p :: t))).
  { unfold ResourceParameterModifyChunk.
    assert (H1 : (len (Some (p :: t)) <=? K)%Z = false).
    { apply Z.leb_gt. unfold len. simpl elems. simpl List.length. lia. }
    rewrite H1. cbn [elems range pass1_body].
    assert (H2 : (@len rdsParameter None >=? K)%Z = true).
    { unfold len. simpl. apply Z.geb_le. lia. }
    rewrite H2. reflexivity. }
  split; [exact E|].
  induction fuel as [|fuel IH]; simpl.
  - reflexivity.
  - rewrite E, IH. reflexivity.
Qed.

Lemma no_capacity_no_progress_witness :
  (0 <= 0)%Z /\
  (ResourceParameterModifyChunk (Some [samples.max_connections]) 0
   = (None, Some [samples.max_connections]) /\
   forall fuel, modifyLoop 0 fuel (Some [samples.max_connections]) = None).
Proof.
  split; [lia | apply (no_capacity_no_progress samples.max_connections [] 0); lia].
Defined.

End planner_more.

(* ===================================================================== *)
(** ** Properties of the rest of Update and Read (RDS parameter group) *)
(* ===================================================================== *)

Module update_facts.
Import Go tf rds rds_update.

(** *** The modify loop *)

Lemma chunk_batch_not_nil l K :
  (1 <= K)%Z ->
  fst (ResourceParameterModifyChunk (Some l) K)
  = Some (elems (fst (ResourceParameterModifyChunk (Some l) K))).
Proof.
  intros HK.
  destruct (Z_le_gt_dec (len (Some l)) K) as [Hs|Hl].
  - now rewrite planner.chunk_small.
  - destruct (planner.chunk_large (Some l) K)
      as (batch & rest & E & Hb & _ & _); [lia | lia |].
    rewrite E. simpl. destruct batch; [reflexivity|].
    unfold len in Hb. simpl in Hb. lia.
Qed.

Lemma modifyParameters_spec {W} (conn : RDSUpdateConn W) (name : string) :
  forall n l fuel st,
    (List.length l <= n)%nat -> (n < fuel)%nat ->
    exists batches,
      modifyLoop maxParamModifyChunk fuel (Some l) = Some batches /\
      modifyParameters conn name fuel (Some l) st
      = Some (send_each "ModifyDBParameterGroup" name
                        (ModifyDBParameterGroupWithContext conn)
                        (map (fun b => mkModifyInput (Some name) (Some b))
                             batches)
                        st).
Proof.
  assert (HK : (1 <= maxParamModifyChunk)%Z) by (unfold maxParamModifyChunk; lia).
  induction n as [|n IH]; intros l fuel st Hn Hfuel;
    (destruct fuel as [|fuel]; [lia|]);
    cbn [modifyLoop modifyParameters];
    pose proof (chunk_batch_not_nil l maxParamModifyChunk HK) as Hnn;
    destruct (Z_le_gt_dec (len (Some l)) maxParamModifyChunk) as [Hs|Hl].
  - rewrite planner.chunk_small in * by exact Hs. simpl in Hnn.
    exists [l]. split; [destruct fuel; reflexivity|].
    cbn [map send_each].
    destruct (invoke _ _ _ _ st) as [[e|] st']; [reflexivity|].
    destruct fuel; reflexivity.
  - exfalso. unfold len, maxParamModifyChunk in Hl. simpl in Hl. lia.
  - rewrite planner.chunk_small in * by exact Hs. simpl in Hnn.
    exists [l]. split; [destruct fuel; reflexivity|].
    cbn [map send_each].
    destruct (invoke _ _ _ _ st) as [[e|] st']; [reflexivity|].
    destruct fuel; reflexivity.
  - destruct (planner.chunk_large (Some l) maxParamModifyChunk)
      as (batch & rest & E & Hb & _ & Hex); [lia | lia |].
    pose proof (planner.chunk_large_length _ _ _ _ E Hex Hb) as Hlen.
    rewrite E in *. simpl in Hnn. rewrite Hnn.
    unfold len in Hl, Hlen, Hb; simpl in Hl, Hlen.
    unfold maxParamModifyChunk in Hl, Hlen.
    destruct (invoke "ModifyDBParameterGroup" name
                     (ModifyDBParameterGroupWithContext conn)
                     (mkModifyInput (Some name) (Some (elems batch))) st)
      as [err st'] eqn:Einv.
    destruct (IH rest fuel st') as (bs & Ebs & Esend); [lia | lia |].
    rewrite Ebs. exists (elems batch :: bs). split; [reflexivity|].
    cbn [map send_each]. simpl elems. rewrite Einv.
    destruct err as [e|]; [reflexivity | exact Esend].
Qed.

(** X4 (the modify loop).  Given more iterations than there are
    parameters, the modify loop of Update sends the batches of the planner
    (capacity 20), one request per batch and in their order, and stops at
    the first request that fails, returning its error: no later batch is
    sent.  With no parameter to modify it sends nothing. *)
Theorem modify_sends_planned_batches {W} (conn : RDSUpdateConn W)
        (name : string) (l : list rdsParameter) (fuel : nat)
        (st : remote W) :
  (List.length l < fuel)%nat ->
  (l = [] -> modifyChanged conn name fuel (Some l) st = Some (None, st)) /\
  (l <> [] ->
   exists batches,
     modifyLoop maxParamModifyChunk fuel (Some l) = Some batches /\
     modifyChanged conn name fuel (Some l) st
     = Some (send_each "ModifyDBParameterGroup" name
                       (ModifyDBParameterGroupWithContext conn)
                       (map (fun b => mkModifyInput (Some name) (Some b))
                            batches)
                       st)).
Proof.
  intros Hfuel. split.
  - intros ->. reflexivity.
  - intros Hne. unfold modifyChanged.
    assert (Hpos : (len (Some l) >? 0)%Z = true).
    { destruct l; [congruence|]. reflexivity. }
    rewrite Hpos.
    apply (modifyParameters_spec conn name (List.length l)); [lia | exact Hfuel].
Qed.

Lemma modify_sends_planned_batches_witness :
  (List.length (elems samples.scenario2) < 4)%nat /\
  (elems samples.scenario2 <> [] ->
   exists batches,
     modifyLoop maxParamModifyChunk 4 (Some (elems samples.scenario2))
     = Some batches /\
     modifyChanged samples_update.update_conn "pg-1" 4
                   (Some (elems samples.scenario2))
                   (samples.start [Some samples_update.throttled])
     = Some (send_each "ModifyDBParameterGroup" "pg-1"
                       (ModifyDBParameterGroupWithContext
                          samples_update.update_conn)
                       (map (fun b => mkModifyInput (Some "pg-1"%string)
                                                    (Some b))
                            batches)
                       (samples.start [Some samples_update.throttled]))).
Proof.
  split; [simpl; lia|].
  apply (modify_sends_planned_batches
           samples_update.update_conn "pg-1" (elems samples.scenario2) 4
           (samples.start [Some samples_update.throttled])).
  simpl. lia.
Defined.

(** *** The reset loop *)

Lemma resetRemoved_spec {W} (conn : RDSUpdateConn W) (name : string) :
  forall n l fuel st,
    (List.length l <= n)%nat -> (n < fuel)%nat ->
    exists init last,
      resetRemoved conn name fuel (Some l) st
      = Some (send_each "ResetDBParameterGroup" name
                        (ResetDBParameterGroupWithContext conn)
                        (map (fun b => mkResetInput (Some name) (Some b)
                                                    (Some false))
                             (init ++ [last]))
                        st) /\
      Forall (fun b => List.length b = 20%nat) init /\
      (List.length last <= 20)%nat /\
      (l <> [] -> last <> []) /\
      List.concat (init ++ [last]) = l.
Proof.
  induction n as [|n IH]; intros l fuel st Hn Hfuel;
    (destruct fuel as [|fuel]; [lia|]);
    cbn [resetRemoved];
    destruct (Z_le_gt_dec (len (Some l)) maxParamModifyChunk) as [Hs|Hl].
  - apply Z.leb_le in Hs. rewrite Hs. exists [], l.
    apply Z.leb_le in Hs. unfold len, maxParamModifyChunk in Hs. simpl in Hs.
    cbn [app map send_each]. repeat split; auto; try lia.
    + destruct (invoke _ _ _ _ st) as [[e|] st']; [reflexivity|].
      destruct fuel; reflexivity.
    + simpl. apply app_nil_r.
  - exfalso. unfold len, maxParamModifyChunk in Hl. simpl in Hl. lia.
  - apply Z.leb_le in Hs. rewrite Hs. exists [], l.
    apply Z.leb_le in Hs. unfold len, maxParamModifyChunk in Hs. simpl in Hs.
    cbn [app map send_each]. repeat split; auto; try lia.
    + destruct (invoke _ _ _ _ st) as [[e|] st']; [reflexivity|].
      destruct fuel; reflexivity.
    + simpl. apply app_nil_r.
  - assert (Hgt : (len (Some l) <=? maxParamModifyChunk)%Z = false)
      by (apply Z.leb_gt; lia).
    rewrite Hgt.
    change (Z.to_nat maxParamModifyChunk) with 20%nat.
    unfold len, maxParamModifyChunk in Hl. simpl in Hl.
    destruct (invoke "ResetDBParameterGroup" name
                     (ResetDBParameterGroupWithContext conn)
                     (mkResetInput (Some name) (Some (firstn 20 l))
                                   (Some false)) st)
      as [err st'] eqn:Einv.
    assert (Hskip : List.length (skipn 20 l) = (List.length l - 20)%nat)
      by apply length_skipn.
    destruct (IH (skipn 20 l) fuel st')
      as (init & last & Esend & Hfull & Hlast & Hne & Hcat); [lia | lia |].
    exists (firstn 20 l :: init), last.
    cbn [app map send_each]. rewrite Einv.
    repeat split.
    + destruct err as [e|]; [reflexivity | exact Esend].
    + constructor; [|exact Hfull].
      rewrite length_firstn. lia.
    + exact Hlast.
    + intros _. apply Hne. intros E. rewrite E in Hskip. simpl in Hskip. lia.
    + cbn [List.concat]. rewrite Hcat. apply firstn_skipn.
Qed.

(** X5 (the reset loop).  Given more iterations than there are
    parameters to reset, the reset loop of Update cuts them, in their
    order, into batches of exactly 20 followed by a last batch of 1 to
    20, sends one reset request per batch and stops at the first request
    that fails.  With nothing to reset it sends nothing. *)
Theorem reset_sends_chunks_of_twenty {W} (conn : RDSUpdateConn W)
        (name : string) (l : list rdsParameter) (fuel : nat)
        (st : remote W) :
  (List.length l < fuel)%nat ->
  (l = [] -> resetChanged conn name fuel (Some l) st = Some (None, st)) /\
  (l <> [] ->
   exists init last,
     resetChanged conn name fuel (Some l) st
     = Some (send_each "ResetDBParameterGroup" name
                       (ResetDBParameterGroupWithContext conn)
                       (map (fun b => mkResetInput (Some name) (Some b)
                                                   (Some false))
                            (init ++ [last]))
                       st) /\
     Forall (fun b => List.length b = 20%nat) init /\
     (1 <= List.length last <= 20)%nat /\
     List.concat (init ++ [last]) = l).
Proof.
  intros Hfuel. split.
  - intros ->. reflexivity.
  - intros Hne. unfold resetChanged.
    assert (Hpos : (len (Some l) >? 0)%Z = true).
    { destruct l; [congruence|]. reflexivity. }
    rewrite Hpos.
    destruct (resetRemoved_spec conn name (List.length l) l fuel st)
      as (init & last & E & Hfull & Hlast & Hn & Hcat); [lia | exact Hfuel |].
    exists init, last. repeat split; auto.
    specialize (Hn Hne). destruct last; [congruence | simpl; lia].
Qed.

Lemma reset_sends_chunks_of_twenty_witness :
  (List.length (elems samples.scenario2) < 4)%nat /\
  (elems samples.scenario2 <> [] ->
   exists init last,
     resetChanged samples_update.update_conn "pg-1" 4
                  (Some (elems samples.scenario2)) (samples.start [])
     = Some (send_each "ResetDBParameterGroup" "pg-1"
                       (ResetDBParameterGroupWithContext
                          samples_update.update_conn)
                       (map (fun b => mkResetInput (Some "pg-1"%string)
                                                   (Some b) (Some false))
                            (init ++ [last]))
                       (samples.start [])) /\
     Forall (fun b => List.length b = 20%nat) init /\
     (1 <= List.length last <= 20)%nat /\
     List.concat (init ++ [last]) = elems samples.scenario2).
Proof.
  split; [simpl; lia|].
  apply (reset_sends_chunks_of_twenty
           samples_update.update_conn "pg-1" (elems samples.scenario2) 4
           (samples.start [])).
  simpl. lia.
Defined.

(** *** The parameters to reset *)

Lemma map_assign_keys k v m k' :
  In k' (map fst (map_assign k v m)) <-> k' = k \/ In k' (map fst m).
Proof.
  induction m as [|[k0 v0] m IH]; simpl.
  - intuition.
  - destruct (String.eqb k0 k) eqn:E; simpl.
    + apply String.eqb_eq in E. subst. intuition.
    + rewrite IH. intuition.
Qed.

Lemma map_assign_NoDup k v m :
  NoDup (map fst m) -> NoDup (map fst (map_assign k v m)).
Proof.
  induction m as [|[k0 v0] m IH]; simpl; intros H.
  - constructor; [intros [] | constructor].
  - inversion H as [|? ? Hnin Hnd]; subst.
    destruct (String.eqb k0 k) eqn:E; simpl.
    + apply String.eqb_eq in E. subst. now constructor.
    + apply String.eqb_neq in E. constructor; [|auto].
      rewrite map_assign_keys. intros [->|Hin]; [congruence | contradiction].
Qed.

Lemma map_assign_In k v m k' v' :
  In (k', v') (map_assign k v m) -> (k' = k /\ v' = v) \/ In (k', v') m.
Proof.
  induction m as [|[k0 v0] m IH]; simpl.
  - intros [E|[]]. left. now injection E as <- <-.
  - destruct (String.eqb k0 k); simpl.
    + intros [E|Hin]; [left; now injection E as <- <- | auto].
    + intros [E|Hin]; [auto | destruct (IH Hin); auto].
Qed.

Lemma enter_all old :
  forall seen m,
    entered seen m ->
    entered (seen ++ old) (fold_left enter_old old m).
Proof.
  induction old as [|p old IH]; intros seen m Hm; simpl.
  - now rewrite app_nil_r.
  - replace (seen ++ p :: old) with ((seen ++ [p]) ++ old)
      by (rewrite <- app_assoc; reflexivity).
    apply IH. destruct Hm as (Hnd & Hval & Hkey).
    unfold enter_old.
    destruct (ParameterName p) as [n|] eqn:En.
    + repeat split.
      * now apply map_assign_NoDup.
      * apply map_assign_In in H. destruct H as [[-> ->]|H].
        -- apply in_or_app. right. now left.
        -- apply in_or_app. left. now apply (Hval k v).
      * apply map_assign_In in H. destruct H as [[-> ->]|H].
        -- exact En.
        -- now apply (Hval k v).
      * intros n0 Hn0. rewrite map_app in Hn0. apply in_app_or in Hn0.
        apply map_assign_keys. destruct Hn0 as [Hn0|Hn0].
        -- right. auto.
        -- simpl in Hn0. destruct Hn0 as [E|[]]. left. congruence.
    + repeat split.
      * exact Hnd.
      * apply in_or_app. left. now apply (Hval k v).
      * now apply (Hval k v).
      * intros n0 Hn0. rewrite map_app in Hn0. apply in_app_or in Hn0.
        destruct Hn0 as [Hn0|Hn0]; [auto|].
        simpl in Hn0. destruct Hn0 as [E|[]]. congruence.
Qed.

Lemma map_delete_In k m k' v' :
  In (k', v') (map_delete k m) <-> In (k', v') m /\ k' <> k.
Proof.
  unfold map_delete. rewrite filter_In. simpl.
  rewrite negb_true_iff, String.eqb_neq. reflexivity.
Qed.

Lemma map_delete_NoDup k m :
  NoDup (map fst m) -> NoDup (map fst (map_delete k m)).
Proof.
  unfold map_delete.
  induction m as [|[k0 v0] m IH]; simpl; intros H; [constructor|].
  inversion H as [|? ? Hnin Hnd]; subst.
  destruct (negb (String.eqb k0 k)); simpl; [|auto].
  constructor; [|auto].
  intros Hin. apply Hnin. apply in_map_iff in Hin.
  destruct Hin as ([k1 v1] & E & Hin). apply filter_In in Hin.
  apply in_map_iff. exists (k1, v1). tauto.
Qed.

Lemma delete_all new :
  forall m,
    (NoDup (map fst m) -> NoDup (map fst (fold_left delete_new new m))) /\
    (forall k v,
        In (k, v) (fold_left delete_new new m)
        <-> In (k, v) m /\ ~ In (Some k) (map ParameterName new)).
Proof.
  induction new as [|p new IH]; intros m; simpl.
  - split; [auto|]. intros k v. tauto.
  - unfold delete_new at 2 4.
    destruct (ParameterName p) as [n|] eqn:En.
    + destruct (IH (map_delete n m)) as [Hnd Hin]. split.
      * intros H. apply Hnd. now apply map_delete_NoDup.
      * intros k v. rewrite Hin, map_delete_In. split.
        -- intros [[H1 H2] H3]. split; [exact H1|].
           intros [E|H4]; [congruence | contradiction].
        -- intros [H1 H2]. repeat split; auto.
           intros ->. apply H2. now left.
    + destruct (IH m) as [Hnd Hin]. split; [exact Hnd|].
      intros k v. rewrite Hin. split.
      * intros [H1 H2]. split; [exact H1|].
        intros [E|H4]; [discriminate | contradiction].
      * intros [H1 H2]. split; auto.
Qed.

(** X6 (what is reset).  In whatever order Go ranges over [toRemove], the
    parameters handed to the reset loop are old parameters whose name is
    the name of no new parameter; every name that the old parameters
    have and the new ones do not is the name of one of them; and no two
    of them have the same name. *)
Theorem reset_exactly_removed_names (old new vals : list rdsParameter) :
  ranged_over (toRemove old new) vals ->
  (forall p, In p vals ->
             In p old /\
             exists n, ParameterName p = Some n /\
                       ~ In (Some n) (map ParameterName new)) /\
  (forall n, In (Some n) (map ParameterName old) ->
             ~ In (Some n) (map ParameterName new) ->
             exists p, In p vals /\ ParameterName p = Some n) /\
  NoDup (map ParameterName vals).
Proof.
  unfold ranged_over, toRemove. intros Hperm.
  set (m1 := fold_left enter_old old []) in *.
  assert (H1 : entered old m1).
  { apply (enter_all old [] []).
    split; [constructor | split; [intros k v [] | intros n []]]. }
  destruct H1 as (Hnd1 & Hval1 & Hkey1).
  destruct (delete_all new m1) as [Hnd2 Hin2].
  set (m2 := fold_left delete_new new m1) in *.
  specialize (Hnd2 Hnd1).
  assert (Hvals : forall p, In p vals <-> exists k, In (k, p) m2).
  { intros p. split.
    - intros Hp. apply (Permutation_in p Hperm) in Hp.
      apply in_map_iff in Hp. destruct Hp as ([k v] & E & Hin).
      simpl in E. subst v. eauto.
    - intros [k Hin]. apply (Permutation_in p (Permutation_sym Hperm)).
      apply in_map_iff. exists (k, p). auto. }
  repeat split.
  - apply Hvals in H. destruct H as [k Hk]. apply Hin2 in Hk.
    apply (Hval1 k p). tauto.
  - apply Hvals in H. destruct H as [k Hk]. apply Hin2 in Hk.
    destruct Hk as [Hk Hnew]. exists k. split; [|exact Hnew].
    apply (Hval1 k p Hk).
  - intros n Hold Hnew. specialize (Hkey1 n Hold).
    apply in_map_iff in Hkey1. destruct Hkey1 as ([k v] & E & Hin).
    simpl in E. subst k. exists v. split.
    + apply Hvals. exists n. apply Hin2. auto.
    + apply (Hval1 n v Hin).
  - apply (Permutation_NoDup (l := map ParameterName (map snd m2))).
    { apply Permutation_map. now symmetry. }
    assert (E : map ParameterName (map snd m2) = map Some (map fst m2)).
    { rewrite !map_map. apply map_ext_in. intros [k v] Hin. simpl.
      apply Hin2 in Hin. apply (Hval1 k v). tauto. }
    rewrite E. apply Finite.Injective_map_NoDup; [|exact Hnd2].
    intros x y Hxy. now injection Hxy.
Qed.

Lemma reset_exactly_removed_names_witness :
  ranged_over (toRemove [samples.max_connections; samples.character_set_client]
                        [samples.character_set_client])
              [samples.max_connections] /\
  ((forall p, In p [samples.max_connections] ->
              In p [samples.max_connections; samples.character_set_client] /\
              exists n, ParameterName p = Some n /\
                        ~ In (Some n)
                             (map ParameterName [samples.character_set_client]))
   /\
   (forall n, In (Some n)
                 (map ParameterName
                      [samples.max_connections; samples.character_set_client])
              -> ~ In (Some n)
                      (map ParameterName [samples.character_set_client])
              -> exists p, In p [samples.max_connections]
                           /\ ParameterName p = Some n) /\
   NoDup (map ParameterName [samples.max_connections])).
Proof.
  assert (H : ranged_over
                (toRemove [samples.max_connections; samples.character_set_client]
                          [samples.character_set_client])
                [samples.max_connections]).
  { unfold ranged_over. simpl. apply Permutation_refl. }
  split; [exact H|].
  exact (reset_exactly_removed_names
           [samples.max_connections; samples.character_set_client]
           [samples.character_set_client] [samples.max_connections] H).
Defined.

(** *** The parameters that Read keeps *)

Lemma find_in_config_spec param confParams u :
  range (find_in_config param) confParams u
  = if existsb (fun cp =>
                  negb (is_nil (ParameterName cp))
                  && String.eqb (StringValue (ParameterName cp))
                                (StringValue (ParameterName param)))
               confParams
    then Return (append u [param])
    else Next u.
Proof.
  induction confParams as [|cp rest IH]; simpl; [reflexivity|].
  unfold find_in_config at 1.
  destruct (is_nil (ParameterName cp)); simpl; [exact IH|].
  destruct (String.eqb (StringValue (ParameterName cp))
                       (StringValue (ParameterName param))); simpl;
    [reflexivity | exact IH].
Qed.

Lemma keep_body_spec confParams :
  forall l u,
    exists u',
      range (keep_body confParams) l u = Next u' /\
      elems u' = elems u ++ filter (persisted confParams) l.
Proof.
  induction l as [|param l IH]; intros u; simpl.
  - exists u. now rewrite app_nil_r.
  - unfold keep_body at 1, persisted at 1.
    rewrite find_in_config_spec.
    destruct (is_nil (Source param)); simpl; [apply IH|].
    destruct (is_nil (ParameterName param)); simpl; [apply IH|].
    destruct (String.eqb (StringValue (Source param)) "user"); simpl.
    + destruct (IH (append u [param])) as (u' & E & Eu).
      exists u'. split; [exact E|].
      rewrite Eu, planner.elems_append, <- app_assoc. reflexivity.
    + destruct (existsb _ confParams); simpl.
      * destruct (IH (append u [param])) as (u' & E & Eu).
        exists u'. split; [exact E|].
        rewrite Eu, planner.elems_append, <- app_assoc. reflexivity.
      * apply IH.
Qed.

(** X7 (what Read keeps).  With at least one configured parameter, the
    parameters that Read puts in the state are, in the order the service
    returned them and each once, those that have a source and a name and
    either have the source "user" or bear the name of a configured
    parameter; every other returned parameter is left out. *)
Theorem read_keeps_user_or_configured (configLen : Z)
        (confParams : list rdsParameter) (parameters : slice rdsParameter) :
  (1 <= configLen)%Z ->
  elems (selectUserParams configLen confParams parameters)
  = filter (persisted confParams) (elems parameters).
Proof.
  intros H. unfold selectUserParams.
  assert (E : (configLen <? 1)%Z = false) by (apply Z.ltb_ge; lia).
  rewrite E.
  destruct (keep_body_spec confParams (elems parameters) None)
    as (u' & Er & Eu).
  rewrite Er. exact Eu.
Qed.

Lemma read_keeps_user_or_configured_witness :
  (1 <= 1)%Z /\
  elems (selectUserParams
           1 [samples.max_connections]
           (Some [samples_update.default_param "max_connections";
                  samples_update.default_param "innodb_file_per_table";
                  samples_update.user_param "character_set_server"]))
  = filter (persisted [samples.max_connections])
           [samples_update.default_param "max_connections";
            samples_update.default_param "innodb_file_per_table";
            samples_update.user_param "character_set_server"].
Proof.
  split; [lia|].
  apply (read_keeps_user_or_configured
           1 [samples.max_connections]
           (Some [samples_update.default_param "max_connections";
                  samples_update.default_param "innodb_file_per_table";
                  samples_update.user_param "character_set_server"])).
  lia.
Defined.

(** The sample above: the engine default that is not configured is left
    out. *)
Example read_keeps_sample :
  elems (selectUserParams
           1 [samples.max_connections]
           (Some [samples_update.default_param "max_connections";
                  samples_update.default_param "innodb_file_per_table";
                  samples_update.user_param "character_set_server"]))
  = [samples_update.default_param "max_connections";
     samples_update.user_param "character_set_server"].
Proof. reflexivity. Qed.

End update_facts.

(* ===================================================================== *)
(** ** Further properties of the handlers *)
(* ===================================================================== *)

Module handlers_more.
Import Go tf.

(** *** RDS parameter group *)

(** X8 (an answer that is not the group).  When the describe call of Read
    succeeds but does not hold exactly one group, or holds one group of
    another name, Read returns an error diagnostic and leaves the resource
    as it was, identifier included: the resource is not removed from the
    state, and nothing more is asked of the service. *)
Theorem rds_read_unusable_answer {W} (conn : rds.RDSConn W)
        (tail : rds.DBParameterGroup -> rds.ResourceData -> remote W ->
                result (rds.ResourceData * Diagnostics) * remote W)
        (d : rds.ResourceData) (st : remote W)
        (resp : rds.DescribeDBParameterGroupsOutput) (w' : W) :
  rds.DescribeDBParameterGroupsWithContext
    conn (rds.mkDescribeInput (Some (rds.Id d))) (world st)
  = ((Some resp, None), w') ->
  (List.length (rds.DBParameterGroups resp) <> 1%nat \/
   exists g, rds.DBParameterGroups resp = [Some g] /\
             StringValue (rds.DBParameterGroupName g) <> rds.Id d) ->
  rds.resourceParameterGroupRead conn tail d st
  = (Done (d, [mkDiag "Unable to find Parameter Group" None]),
     mkRemote w' (calls st ++ [mkCall "DescribeDBParameterGroups" (rds.Id d)])).
Proof.
  intros E H. unfold rds.resourceParameterGroupRead, invoke. rewrite E.
  destruct H as [H|(g & Eg & Hname)].
  - destruct (rds.DBParameterGroups resp) as [|[g|] [|g' rest]];
      simpl in *; try reflexivity; congruence.
  - rewrite Eg. apply String.eqb_neq in Hname. now rewrite Hname.
Qed.

Lemma rds_read_unusable_answer_witness :
  rds.DescribeDBParameterGroupsWithContext
    samples_update.empty_answer_conn
    (rds.mkDescribeInput (Some (rds.Id samples.old_group)))
    (world (@samples.start (option error) []))
  = ((Some (rds.mkDescribeOutput []), None), @nil (option error)) /\
  (List.length (rds.DBParameterGroups (rds.mkDescribeOutput [])) <> 1%nat \/
   exists g, rds.DBParameterGroups (rds.mkDescribeOutput []) = [Some g] /\
             StringValue (rds.DBParameterGroupName g)
             <> rds.Id samples.old_group) /\
  rds.resourceParameterGroupRead
    samples_update.empty_answer_conn samples.read_nothing_more
    samples.old_group (@samples.start (option error) [])
  = (Done (samples.old_group, [mkDiag "Unable to find Parameter Group" None]),
     mkRemote (@nil (option error)) (calls (@samples.start (option error) [])
                  ++ [mkCall "DescribeDBParameterGroups"
                             (rds.Id samples.old_group)])).
Proof.
  assert (H : List.length (rds.DBParameterGroups (rds.mkDescribeOutput []))
              <> 1%nat \/
              exists g, rds.DBParameterGroups (rds.mkDescribeOutput [])
                        = [Some g] /\
                        StringValue (rds.DBParameterGroupName g)
                        <> rds.Id samples.old_group).
  { left. simpl. lia. }
  split; [reflexivity | split; [exact H|]].
  exact (rds_read_unusable_answer
           samples_update.empty_answer_conn samples.read_nothing_more
           samples.old_group (@samples.start (option error) [])
           (rds.mkDescribeOutput []) (@nil (option error)) eq_refl H).
Defined.

(** A retry loop whose function always asks for another try makes all
    its attempts and ends with the last error. *)
Lemma retry_loop_exhausted {W}
      (f : remote W -> option RetryError * remote W)
      (good : error -> Prop) :
  (forall st, exists e st',
      f st = (Some (RetryableError (Some e)), st') /\ good e /\
      List.length (calls st') = S (List.length (calls st))) ->
  forall n e0 st,
    good e0 ->
    exists e st',
      retry_loop n f (Some e0) st = (Some e, st') /\ good e /\
      List.length (calls st') = (List.length (calls st) + n)%nat.
Proof.
  intros Hf. induction n as [|n IH]; intros e0 st H0; simpl.
  - exists e0, st. repeat split; auto.
  - destruct (Hf st) as (e & st1 & Ef & He & Hc). rewrite Ef.
    destruct (IH e st1 He) as (e' & st' & Er & He' & Hc').
    exists e', st'. repeat split; auto. lia.
Qed.

(** X9 (the end of the retry window).  When every delete request is
    answered with the invalid-state fault, a Delete with [n >= 1]
    attempts sends exactly [n] requests and then returns an error
    diagnostic that carries that fault. *)
Theorem rds_delete_gives_up {W} (conn : rds.RDSConn W)
        (d : rds.ResourceData) (st : remote W) (n : nat) :
  (forall w, exists e w',
      rds.DeleteDBParameterGroup conn (rds.mkDeleteInput (Some (rds.Id d))) w
      = (Some e, w') /\
      isA "InvalidDBParameterGroupStateFault" e = true /\
      isA "DBParameterGroupNotFoundFault" e = false) ->
  exists e st',
    rds.resourceParameterGroupDelete conn (S n) d st
    = ([mkDiag "deleting RDS DB Parameter Group" (Some e)], st') /\
    isA "InvalidDBParameterGroupStateFault" e = true /\
    List.length (calls st') = (List.length (calls st) + S n)%nat.
Proof.
  intros Hbusy.
  set (good := fun e => isA "InvalidDBParameterGroupStateFault" e = true).
  assert (Hf : forall st, exists e st',
               rds.deleteAttempt conn (rds.mkDeleteInput (Some (rds.Id d)))
                                 (rds.Id d) st
               = (Some (RetryableError (Some e)), st') /\ good e /\
               List.length (calls st') = S (List.length (calls st))).
  { intros s. destruct (Hbusy (world s)) as (e & w' & E & H1 & H2).
    unfold rds.deleteAttempt, invoke. rewrite E. simpl. rewrite H1, H2.
    eexists _, _. repeat split; [exact H1|].
    simpl. rewrite length_app. simpl. lia. }
  unfold rds.resourceParameterGroupDelete, RetryContext. cbn [retry_loop].
  destruct (Hf st) as (e1 & st1 & E1 & H1 & Hc1). rewrite E1.
  destruct (retry_loop_exhausted _ good Hf n e1 st1 H1)
    as (e & st' & Er & He & Hc).
  rewrite Er.
  assert (Ht : TimedOut (Some e) = false).
  { unfold good in He. destruct e; simpl in *; try reflexivity; discriminate. }
  rewrite Ht. exists e, st'. repeat split; auto. lia.
Qed.

Lemma rds_delete_gives_up_witness :
  (forall w : samples.script (option error), exists e w',
      rds.DeleteDBParameterGroup
        samples_update.busy_conn
        (rds.mkDeleteInput (Some (rds.Id samples.old_group))) w
      = (Some e, w') /\
      isA "InvalidDBParameterGroupStateFault" e = true /\
      isA "DBParameterGroupNotFoundFault" e = false) /\
  exists e st',
    rds.resourceParameterGroupDelete samples_update.busy_conn 3
                                     samples.old_group (samples.start [])
    = ([mkDiag "deleting RDS DB Parameter Group" (Some e)], st') /\
    isA "InvalidDBParameterGroupStateFault" e = true /\
    List.length (calls st')
    = (List.length (calls (@samples.start (option error) [])) + 3)%nat.
Proof.
  assert (H : forall w : samples.script (option error), exists e w',
             rds.DeleteDBParameterGroup
               samples_update.busy_conn
               (rds.mkDeleteInput (Some (rds.Id samples.old_group))) w
             = (Some e, w') /\
             isA "InvalidDBParameterGroupStateFault" e = true /\
             isA "DBParameterGroupNotFoundFault" e = false).
  { intros w. exists samples.group_in_use, w. repeat split. }
  split; [exact H|].
  exact (rds_delete_gives_up samples_update.busy_conn samples.old_group
                             (samples.start []) 2 H).
Defined.

End handlers_more.

(* ===================================================================== *)
(** ** Further properties of the VPC IPAM handlers *)
(* ===================================================================== *)

Module ipam_facts.
Import Go tf ec2 vpc_ipam vpc_ipam_update.

(** *** Update *)

Lemma has_region_In s r :
  has_region s r = true <-> In (region_name r) (map region_name s).
Proof.
  unfold has_region. rewrite existsb_exists, in_map_iff.
  split; intros (r' & H1 & H2); exists r'.
  - apply String.eqb_eq in H2. tauto.
  - rewrite String.eqb_eq. tauto.
Qed.

Lemma forallb_has_region s t :
  forallb (has_region s) t = true
  <-> (forall n, In n (map region_name t) -> In n (map region_name s)).
Proof.
  rewrite forallb_forall. split.
  - intros H n Hn. apply in_map_iff in Hn. destruct Hn as (r & <- & Hr).
    apply has_region_In. auto.
  - intros H r Hr. apply has_region_In. apply H. now apply in_map.
Qed.

Lemma regions_changed_iff d :
  operating_regions_changed d = false
  <-> (forall n, In n (map region_name (operating_regions_old d))
                 <-> In n (map region_name (operating_regions_new d))).
Proof.
  unfold operating_regions_changed.
  rewrite negb_false_iff, andb_true_iff, !forallb_has_region.
  split.
  - intros [H1 H2] n. split; auto.
  - intros H. split; intros n; apply H.
Qed.

Lemma Difference_names ns os n :
  In n (map region_name (Difference ns os))
  <-> In n (map region_name ns) /\ ~ In n (map region_name os).
Proof.
  unfold Difference. split.
  - intros H. apply in_map_iff in H. destruct H as (r & <- & Hr).
    apply filter_In in Hr. destruct Hr as [Hr Hn].
    split; [now apply in_map|].
    apply negb_true_iff in Hn. intros Hin.
    apply has_region_In in Hin. congruence.
  - intros [H Hn]. apply in_map_iff in H. destruct H as (r & <- & Hr).
    apply in_map_iff. exists r. split; [reflexivity|].
    apply filter_In. split; [exact Hr|].
    apply negb_true_iff. destruct (has_region os r) eqn:E; [|reflexivity].
    apply has_region_In in E. contradiction.
Qed.

(** X10 (nothing sent without a change of regions).  When the recorded
    and the declared operating regions are the same set, Update sends no
    request and returns no error, whatever the change of description. *)
Theorem ipam_update_same_regions {W} (ModifyIpam : ModifyIpamOp W)
        (d : ResourceChange) (st : remote W) :
  (forall n, In n (map region_name (operating_regions_old d))
             <-> In n (map region_name (operating_regions_new d))) ->
  resourceAwsVpcIpamUpdate ModifyIpam d st = (None, st).
Proof.
  intros H. apply regions_changed_iff in H.
  unfold resourceAwsVpcIpamUpdate. now rewrite H.
Qed.

Lemma ipam_update_same_regions_witness :
  (forall n,
      In n (map region_name
                (operating_regions_old samples_update.description_edited))
      <-> In n (map region_name
                    (operating_regions_new samples_update.description_edited)))
  /\
  description_changed samples_update.description_edited = true /\
  resourceAwsVpcIpamUpdate samples_update.modify_ipam
                           samples_update.description_edited
                           (samples.start [])
  = (None, samples.start []).
Proof.
  assert (H : forall n,
             In n (map region_name
                       (operating_regions_old samples_update.description_edited))
             <-> In n (map region_name
                           (operating_regions_new
                              samples_update.description_edited))).
  { intros n. simpl. tauto. }
  split; [exact H | split; [reflexivity|]].
  exact (ipam_update_same_regions samples_update.modify_ipam
                                  samples_update.description_edited
                                  (samples.start []) H).
Defined.

(** X11 (the request of Update).  When the operating regions have
    changed, Update sends one request and returns its error, wrapped, or
    nil.  The request names the IPAM; it carries the declared description
    exactly when the description has changed; it adds the regions that
    are declared and not recorded and removes those that are recorded and
    not declared; and it never carries an empty list. *)
Theorem ipam_update_request {W} (ModifyIpam : ModifyIpamOp W)
        (d : ResourceChange) (st : remote W) :
  operating_regions_changed d = true ->
  exists input,
    resourceAwsVpcIpamUpdate ModifyIpam d st
    = (let '(err, st') :=
         invoke "ModifyIpam" (change_Id d) ModifyIpam input st in
       match err with
       | Some e =>
           (Some (Wrapped "Error modifying operating regions to ipam" e), st')
       | None => (None, st')
       end) /\
    modify_IpamId input = Some (change_Id d) /\
    modify_Description input
    = (if description_changed d then Some (description_new d) else None) /\
    (forall n, In n (added_names input)
               <-> In n (map region_name (operating_regions_new d))
                   /\ ~ In n (map region_name (operating_regions_old d))) /\
    (forall n, In n (removed_names input)
               <-> In n (map region_name (operating_regions_old d))
                   /\ ~ In n (map region_name (operating_regions_new d))) /\
    AddOperatingRegions input <> Some [] /\
    RemoveOperatingRegions input <> Some [].
Proof.
  intros H.
  pose proof (Difference_names (operating_regions_new d)
                               (operating_regions_old d)) as Hadd.
  pose proof (Difference_names (operating_regions_old d)
                               (operating_regions_new d)) as Hrem.
  set (A := Difference (operating_regions_new d) (operating_regions_old d))
    in *.
  set (R := Difference (operating_regions_old d) (operating_regions_new d))
    in *.
  exists (mkModifyIpamInput
            (Some (change_Id d))
            (if description_changed d then Some (description_new d) else None)
            (if negb (Nat.eqb (List.length A) 0)
             then Some (expandAwsIpamOperatingRegionsUpdateAddRegions A)
             else None)
            (if negb (Nat.eqb (List.length R) 0)
             then Some (expandAwsIpamOperatingRegionsUpdateDeleteRegions R)
             else None)).
  assert (EA : forall n, In n (map region_name A)
                         <-> In n (map (fun r => StringValue (add_RegionName r))
                                       (expandAwsIpamOperatingRegionsUpdateAddRegions A))).
  { intros n. unfold expandAwsIpamOperatingRegionsUpdateAddRegions.
    rewrite map_map. reflexivity. }
  assert (ER : forall n, In n (map region_name R)
                         <-> In n (map (fun r => StringValue (remove_RegionName r))
                                       (expandAwsIpamOperatingRegionsUpdateDeleteRegions R))).
  { intros n. unfold expandAwsIpamOperatingRegionsUpdateDeleteRegions.
    rewrite map_map. reflexivity. }
  split; [|split; [reflexivity | split; [reflexivity|]]].
  - unfold resourceAwsVpcIpamUpdate. rewrite H. cbv zeta.
    fold A. fold R.
    unfold expandAwsIpamOperatingRegionsUpdateAddRegions,
      expandAwsIpamOperatingRegionsUpdateDeleteRegions.
    rewrite !length_map.
    destruct (description_changed d); destruct A; destruct R; reflexivity.
  - assert (EeA : elems (if negb (Nat.eqb (List.length A) 0)
                         then Some (expandAwsIpamOperatingRegionsUpdateAddRegions A)
                         else None)
                  = expandAwsIpamOperatingRegionsUpdateAddRegions A)
      by (destruct A; reflexivity).
    assert (EeR : elems (if negb (Nat.eqb (List.length R) 0)
                         then Some (expandAwsIpamOperatingRegionsUpdateDeleteRegions R)
                         else None)
                  = expandAwsIpamOperatingRegionsUpdateDeleteRegions R)
      by (destruct R; reflexivity).
    unfold added_names, removed_names.
    cbn [AddOperatingRegions RemoveOperatingRegions].
    rewrite EeA, EeR.
    split; [intros n; rewrite <- EA; apply Hadd|].
    split; [intros n; rewrite <- ER; apply Hrem|].
    split; [destruct A; discriminate | destruct R; discriminate].
Qed.

Lemma ipam_update_request_witness :
  operating_regions_changed samples_update.regions_moved = true /\
  exists input,
    resourceAwsVpcIpamUpdate samples_update.modify_ipam
                             samples_update.regions_moved (samples.start [])
    = (let '(err, st') :=
         invoke "ModifyIpam" (change_Id samples_update.regions_moved)
                samples_update.modify_ipam input (samples.start []) in
       match err with
       | Some e =>
           (Some (Wrapped "Error modifying operating regions to ipam" e), st')
       | None => (None, st')
       end) /\
    modify_IpamId input = Some (change_Id samples_update.regions_moved) /\
    modify_Description input
    = (if description_changed samples_update.regions_moved
       then Some (description_new samples_update.regions_moved) else None) /\
    (forall n,
        In n (added_names input)
        <-> In n (map region_name
                      (operating_regions_new samples_update.regions_moved))
            /\ ~ In n (map region_name
                           (operating_regions_old samples_update.regions_moved)))
    /\
    (forall n,
        In n (removed_names input)
        <-> In n (map region_name
                      (operating_regions_old samples_update.regions_moved))
            /\ ~ In n (map region_name
                           (operating_regions_new samples_update.regions_moved)))
    /\
    AddOperatingRegions input <> Some [] /\
    RemoveOperatingRegions input <> Some [].
Proof.
  split; [reflexivity|].
  apply (ipam_update_request samples_update.modify_ipam
                             samples_update.regions_moved (samples.start [])).
  reflexivity.
Defined.

(** The sample: the region is moved with one request that adds
    [us-east-1] and removes [eu-west-1]. *)
Example ipam_update_moves_region :
  resourceAwsVpcIpamUpdate
    (fun input w =>
       (None, (added_names input, removed_names input) :: w))
    samples_update.regions_moved (samples.start [])
  = (None, mkRemote [(["us-east-1"%string], ["eu-west-1"%string])]
                    [mkCall "ModifyIpam" "ipam-1"]).
Proof. reflexivity. Qed.

(** *** Operating regions read back from the service *)

Lemma flatten_regions_names_aux (regions : list IpamOperatingRegion) :
  forall l, flattenAwsIpamOperatingRegions regions = Done l
            <-> map RegionName regions
                = map (fun r => Some (region_name r)) l.
Proof.
  induction regions as [|[[n|]] regions IH1]; simpl.
  - intros l. split.
    + intros E. injection E as <-. reflexivity.
    + intros E. destruct l; [reflexivity | discriminate].
  - unfold flattenAwsIpamOperatingRegion. simpl.
    intros l. destruct (flattenAwsIpamOperatingRegions regions) as [rs|m].
    + split.
      * intros E. injection E as <-. simpl. f_equal. now apply IH1.
      * intros E. destruct l as [|[n'] l]; [discriminate|].
        simpl in E. injection E as -> E. apply IH1 in E.
        now injection E as <-.
    + split; [discriminate|].
      intros E. destruct l as [|[n'] l]; [discriminate|].
      simpl in E. injection E as -> E. apply IH1 in E. discriminate.
  - unfold flattenAwsIpamOperatingRegion. simpl.
    intros l. split; [discriminate|].
    intros E. destruct l; discriminate.
Qed.



(** X13 (regions round trip).  When the service reports the operating
    regions that Create sent for a configuration, flattening them gives
    the configured regions back, in the same order. *)
Theorem regions_round_trip (operatingRegions : list operating_region) :
  flattenAwsIpamOperatingRegions
    (map (fun a => mkIpamOperatingRegion (add_RegionName a))
         (expandAwsIpamOperatingRegions operatingRegions))
  = Done operatingRegions.
Proof.
  apply flatten_regions_names_aux.
  unfold expandAwsIpamOperatingRegions, expandAwsIpamOperatingRegion.
  rewrite !map_map. reflexivity.
Qed.

(** *** The lookups *)

Lemma finders_error_is_answer_error {W} (conn : EC2 W) (id : string)
      (st : remote W) :
  snd (fst (findIpamById conn id st))
  = snd (fst (DescribeIpams conn (mkDescribeIpamsInput [id]) (world st))).
Proof.
  unfold findIpamById, invoke.
  destruct (DescribeIpams conn _ (world st)) as [[out err] w'].
  destruct err as [e|]; [reflexivity|].
  destruct out as [out|]; [|reflexivity].
  destruct (Ipams out) as [|[i|] rest]; reflexivity.
Qed.

(** X14 (result or error, never both).  Each of [findIpamById] and
    [findIpamScopeById] sends one describe request for the identifier.
    It never returns a value together with an error; an error it returns
    is the error of the request; a value it returns is the first element
    of an answer that came without error. *)
Theorem finders_value_or_error {W} (conn : EC2 W) (id : string)
        (st : remote W) :
  (calls (snd (findIpamById conn id st))
   = calls st ++ [mkCall "DescribeIpams" id] /\
   snd (fst (findIpamById conn id st))
   = snd (fst (DescribeIpams conn (mkDescribeIpamsInput [id]) (world st))) /\
   (forall i, fst (fst (findIpamById conn id st)) = Some i ->
              snd (fst (findIpamById conn id st)) = None /\
              exists out rest,
                fst (fst (DescribeIpams conn (mkDescribeIpamsInput [id])
                                        (world st)))
                = Some out /\
                Ipams out = Some i :: rest))
  /\
  (calls (snd (vpc_ipam_scope.findIpamScopeById conn id st))
   = calls st ++ [mkCall "DescribeIpamScopes" id] /\
   snd (fst (vpc_ipam_scope.findIpamScopeById conn id st))
   = snd (fst (DescribeIpamScopes conn (mkDescribeIpamScopesInput [id])
                                  (world st))) /\
   (forall sc, fst (fst (vpc_ipam_scope.findIpamScopeById conn id st))
               = Some sc ->
               snd (fst (vpc_ipam_scope.findIpamScopeById conn id st)) = None /\
               exists out rest,
                 fst (fst (DescribeIpamScopes conn
                                              (mkDescribeIpamScopesInput [id])
                                              (world st)))
                 = Some out /\
                 IpamScopes out = Some sc :: rest)).
Proof.
  split.
  - unfold findIpamById, invoke.
    destruct (DescribeIpams conn _ (world st)) as [[out err] w'].
    destruct err as [e|]; simpl;
      [split; [reflexivity | split; [reflexivity | intros i E; discriminate]]|].
    destruct out as [out|]; simpl;
      [|split; [reflexivity | split; [reflexivity | intros i E; discriminate]]].
    destruct (Ipams out) as [|[i0|] rest] eqn:Eo; simpl;
      (split; [reflexivity | split; [reflexivity|]]);
      intros i E; try discriminate.
    injection E as <-. eauto.
  - unfold vpc_ipam_scope.findIpamScopeById, invoke.
    destruct (DescribeIpamScopes conn _ (world st)) as [[out err] w'].
    destruct err as [e|]; simpl;
      [split; [reflexivity | split; [reflexivity | intros i E; discriminate]]|].
    destruct out as [out|]; simpl;
      [|split; [reflexivity | split; [reflexivity | intros i E; discriminate]]].
    destruct (IpamScopes out) as [|[i0|] rest] eqn:Eo; simpl;
      (split; [reflexivity | split; [reflexivity|]]);
      intros i E; try discriminate.
    injection E as <-. eauto.
Qed.

(** *** Read of an IPAM scope that exists *)

Lemma append_snoc (cur a : string) (c : ascii) :
  ((cur ++ String c EmptyString) ++ a)%string = (cur ++ String c a)%string.
Proof.
  induction cur as [|c' cur IH]; simpl; congruence.
Qed.

Lemma append_empty (s : string) : (s ++ EmptyString)%string = s.
Proof.
  induction s as [|c s IH]; simpl; congruence.
Qed.

Lemma prefix_empty (s : string) : String.prefix EmptyString s = true.
Proof.
  destruct s; reflexivity.
Qed.

Lemma no_slash_cons (c : ascii) (a : string) :
  strings_Contains (String c a) "/" = false ->
  c <> "/"%char /\ strings_Contains a "/" = false.
Proof.
  cbn [strings_Contains]. intros H. apply orb_false_iff in H.
  destruct H as [H1 H2]. split; [|exact H2].
  intros ->. simpl in H1. now rewrite prefix_empty in H1.
Qed.

Lemma prefix_slash_other (c : ascii) (s : string) :
  c <> "/"%char -> String.prefix "/" (String c s) = false.
Proof.
  intros H.
  change (String.prefix "/" (String c s))
    with (if Ascii.ascii_dec "/" c then String.prefix EmptyString s else false).
  destruct (Ascii.ascii_dec "/" c); [congruence | reflexivity].
Qed.

(** A string without the separator is one piece. *)
Lemma split_no_slash (a cur : string) :
  strings_Contains a "/" = false ->
  split_from "/" a 0 cur = [(cur ++ a)%string].
Proof.
  revert cur. induction a as [|c a IH]; intros cur H.
  - simpl. now rewrite append_empty.
  - apply no_slash_cons in H. destruct H as [Hc Ha].
    cbn [split_from]. rewrite (prefix_slash_other c a Hc).
    rewrite (IH _ Ha). now rewrite append_snoc.
Qed.

(** The first piece ends at the first separator. *)
Lemma split_at_slash (a rest cur : string) :
  strings_Contains a "/" = false ->
  split_from "/" (a ++ String "/" rest) 0 cur
  = (cur ++ a)%string :: split_from "/" rest 0 EmptyString.
Proof.
  revert cur. induction a as [|c a IH]; intros cur H.
  - simpl. rewrite prefix_empty, append_empty. reflexivity.
  - apply no_slash_cons in H. destruct H as [Hc Ha].
    cbn [String.append split_from].
    rewrite (prefix_slash_other c _ Hc).
    rewrite (IH _ Ha). now rewrite append_snoc.
Qed.

(** X15 (the IPAM of a scope).  When the lookup finds the scope, Read
    takes the IPAM identifier from the scope's IPAM ARN: for an ARN
    [a/b] with no further slash it stores [b] as [ipam_id], keeps the
    resource identifier and returns a nil error; for an ARN without any
    slash it panics, the index being out of range. *)
Theorem scope_read_ipam_id {W} (conn : EC2 W)
        (d : vpc_ipam_scope.ResourceData) (st st' : remote W)
        (sc : IpamScope) (a b : string) :
  vpc_ipam_scope.findIpamScopeById conn (vpc_ipam_scope.Id d) st
  = ((Some sc, None), st') ->
  strings_Contains a "/" = false ->
  strings_Contains b "/" = false ->
  (scope_IpamArn sc = Some (a ++ String "/" b)%string ->
   vpc_ipam_scope.resourceAwsVpcIpamScopeRead conn d st
   = (Done (vpc_ipam_scope.Set_scope d sc b, None), st') /\
   vpc_ipam_scope.ipam_id (vpc_ipam_scope.Set_scope d sc b) = b /\
   vpc_ipam_scope.Id (vpc_ipam_scope.Set_scope d sc b) = vpc_ipam_scope.Id d)
  /\
  (scope_IpamArn sc = Some a ->
   vpc_ipam_scope.resourceAwsVpcIpamScopeRead conn d st
   = (Panic "index out of range", st')).
Proof.
  intros Ef Ha Hb. unfold vpc_ipam_scope.resourceAwsVpcIpamScopeRead.
  rewrite Ef. split; intros Earn; rewrite Earn; unfold strings_Split.
  - rewrite (split_at_slash a b EmptyString Ha).
    rewrite (split_no_slash b EmptyString Hb). simpl.
    destruct (vpc_ipam_scope.IsNewResource d); simpl; auto.
  - rewrite (split_no_slash a EmptyString Ha). reflexivity.
Qed.

Lemma scope_read_ipam_id_witness :
  vpc_ipam_scope.findIpamScopeById
    samples_update.scope_conn (vpc_ipam_scope.Id samples.old_scope)
    (samples.start [])
  = ((Some samples_update.a_scope, None),
     mkRemote [] [mkCall "DescribeIpamScopes" "ipam-scope-1"]) /\
  strings_Contains "arn:aws:ec2::123456789012:ipam" "/" = false /\
  strings_Contains "ipam-1" "/" = false /\
  ((scope_IpamArn samples_update.a_scope
    = Some ("arn:aws:ec2::123456789012:ipam" ++ String "/" "ipam-1")%string ->
    vpc_ipam_scope.resourceAwsVpcIpamScopeRead
      samples_update.scope_conn samples.old_scope (samples.start [])
    = (Done (vpc_ipam_scope.Set_scope samples.old_scope samples_update.a_scope
                                      "ipam-1", None),
       mkRemote [] [mkCall "DescribeIpamScopes" "ipam-scope-1"]) /\
    vpc_ipam_scope.ipam_id
      (vpc_ipam_scope.Set_scope samples.old_scope samples_update.a_scope
                                "ipam-1")
    = "ipam-1"%string /\
    vpc_ipam_scope.Id
      (vpc_ipam_scope.Set_scope samples.old_scope samples_update.a_scope
                                "ipam-1")
    = vpc_ipam_scope.Id samples.old_scope)
   /\
   (scope_IpamArn samples_update.a_scope
    = Some "arn:aws:ec2::123456789012:ipam"%string ->
    vpc_ipam_scope.resourceAwsVpcIpamScopeRead
      samples_update.scope_conn samples.old_scope (samples.start [])
    = (Panic "index out of range",
       mkRemote [] [mkCall "DescribeIpamScopes" "ipam-scope-1"]))).
Proof.
  repeat (split; [reflexivity|]).
  apply (scope_read_ipam_id
           samples_update.scope_conn samples.old_scope (samples.start [])
           (mkRemote [] [mkCall "DescribeIpamScopes" "ipam-scope-1"])
           samples_update.a_scope
           "arn:aws:ec2::123456789012:ipam" "ipam-1");
    reflexivity.
Defined.

(** *** Create *)

Lemma region_present (d : ResourceData) (current_region : string) :
  In current_region (map region_name (operating_regions d)) ->
  expandAwsIpamOperatingRegionsDefaultRegion (operating_regions d)
                                             current_region = true.
Proof.
  induction (operating_regions d) as [|r rs IH]; simpl.
  - intros [].
  - intros [E|H].
    + apply String.eqb_eq in E. now rewrite E.
    + destruct (String.eqb (region_name r) current_region); auto.
Qed.

(** X16 (a create request that fails).  When the provider's region is
    among the operating regions, Create sends one request that carries
    the client token, the description if it is not empty, and one region
    per configured operating region, in their order.  If that request
    fails, Create returns its error, wrapped, sends nothing more and
    leaves the resource without identifier, as it was. *)
Theorem ipam_create_request_fails {W} (meta : AWSClient W)
        (uniqueId : string) (d : ResourceData) (st : remote W)
        (out : option CreateIpamOutput) (e : error) (w' : W) :
  In (region meta) (map region_name (operating_regions d)) ->
  CreateIpam (ec2conn meta)
             (mkCreateIpamInput
                (Some uniqueId)
                (if String.eqb (description d) "" then None
                 else Some (description d))
                (map (fun r => mkAddIpamOperatingRegion (Some (region_name r)))
                     (operating_regions d)))
             (world st)
  = ((out, Some e), w') ->
  resourceAwsVpcIpamCreate meta uniqueId d st
  = (Done (d, Some (Wrapped "Error creating ipam" e)),
     mkRemote w' (calls st ++ [mkCall "CreateIpam" uniqueId])).
Proof.
  intros Hr Ec. unfold resourceAwsVpcIpamCreate.
  rewrite (region_present d (region meta) Hr). cbn [negb].
  unfold invoke, expandAwsIpamOperatingRegions, expandAwsIpamOperatingRegion.
  destruct (String.eqb (description d) ""); cbn [negb] in *;
    cbn [ClientToken create_Description create_OperatingRegions];
    rewrite Ec; reflexivity.
Qed.

Lemma ipam_create_request_fails_witness :
  In (region samples_update.failing_client)
     (map region_name (operating_regions samples.ipam_here)) /\
  CreateIpam (ec2conn samples_update.failing_client)
             (mkCreateIpamInput
                (Some "token"%string)
                (if String.eqb (description samples.ipam_here) "" then None
                 else Some (description samples.ipam_here))
                (map (fun r => mkAddIpamOperatingRegion (Some (region_name r)))
                     (operating_regions samples.ipam_here)))
             (world (@samples.start (option error) []))
  = ((None, Some samples_update.throttled), []) /\
  resourceAwsVpcIpamCreate samples_update.failing_client "token"
                           samples.ipam_here (samples.start [])
  = (Done (samples.ipam_here,
           Some (Wrapped "Error creating ipam" samples_update.throttled)),
     mkRemote [] (calls (@samples.start (option error) [])
                  ++ [mkCall "CreateIpam" "token"])).
Proof.
  assert (H : In (region samples_update.failing_client)
                 (map region_name (operating_regions samples.ipam_here))).
  { simpl. auto. }
  split; [exact H | split; [reflexivity|]].
  exact (ipam_create_request_fails
           samples_update.failing_client "token" samples.ipam_here
           (samples.start []) None samples_update.throttled [] H eq_refl).
Defined.



(** *** The status of an IPAM *)

(** X18 (the status read while waiting for a deletion).
    [statusIpamStatus] reports the state [InvalidIpamId.NotFound], with a
    nil error, exactly when the describe request fails with that error
    code; it passes any other error on, with an empty state; and it
    reports [Available] whenever the request succeeds, also when the
    answer holds no IPAM. *)
Theorem status_of_describe_answer {W} (conn : EC2 W) (ipamId : string)
        (st : remote W) :
  let answer_error :=
    snd (fst (DescribeIpams conn (mkDescribeIpamsInput [ipamId]) (world st))) in
  let state := snd (fst (fst (statusIpamStatus conn ipamId st))) in
  let status_error := snd (fst (statusIpamStatus conn ipamId st)) in
  (ErrCodeEquals answer_error InvalidIpamIdNotFound = true ->
   state = InvalidIpamIdNotFound /\ status_error = None) /\
  (ErrCodeEquals answer_error InvalidIpamIdNotFound = false ->
   answer_error <> None ->
   state = EmptyString /\ status_error = answer_error) /\
  (answer_error = None -> state = IpamStatusAvailable /\ status_error = None).
Proof.
  cbv zeta. unfold statusIpamStatus.
  pose proof (finders_error_is_answer_error conn ipamId st) as Hf.
  destruct (findIpamById conn ipamId st) as [[ipam err] st'].
  simpl in Hf. rewrite <- Hf. clear Hf.
  repeat split.
  - now rewrite H.
  - now rewrite H.
  - rewrite H. destruct err; [reflexivity | congruence].
  - rewrite H. destruct err; [reflexivity | congruence].
  - now rewrite H.
  - now rewrite H.
Qed.

End ipam_facts.
